(** * Hospital management system: queue, treatment ledger, directory, facade

    A shallow embedding of [hospital_system.py] and of the two request
    handlers of [app.py] that the verified properties mention.

    Modelling conventions.
    - Python objects that are mutated through more than one reference (the
      nodes of the linked queue, reached from [head], from [tail] and from
      the [next] field of their predecessor) live in a store, a list indexed
      by address; a reference is an index, allocation appends.
    - Python dictionaries keyed by strings are [gmap string _].
    - Python [int] is [Z].
    - The two sources of non-determinism, [uuid.uuid4()] and
      [datetime.datetime.now()], are explicit arguments of the operations
      that consult them.
    - A raised exception is an outcome [Exc e] returned together with the
      state reached when it was raised.
    - The operations that only read the state and that no property below
      mentions ([get_status_data], [get_specialization_tree_data]) are
      left out. *)

From Stdlib Require Import ZArith NArith Ascii.
From stdpp Require Import base option list gmap strings fin_maps.

Local Open Scope string_scope.
Local Open Scope list_scope.
Local Open Scope Z_scope.

(** ** Exceptions and outcomes *)

Inductive exn :=
| KeyError (k : string)        (* [d[k]] with [k] not in the dictionary *)
| BadRef (a : nat)             (* dereference of an address outside the store *)
| BadRequest.                  (* [request.json] has no usable body *)

Inductive outcome (A : Type) :=
| Ret (a : A)
| Exc (e : exn).
Arguments Ret {A} a.
Arguments Exc {A} e.

(** Python truthiness of an [Optional[str]]: [None] and the empty string are
    falsy. *)
Definition truthy (o : option string) : bool :=
  match o with
  | None => false
  | Some s => negb (String.eqb s "")
  end.

(** ** Identifiers: [str(uuid.uuid4())[:8]]

    [str] of a UUID prints its 128-bit integer as 32 lowercase hexadecimal
    digits, most significant first, with dashes after digits 8, 12, 16 and
    20.  The first eight characters are therefore the top 32 bits. *)

Definition hex_digit (d : N) : ascii :=
  if (d <? 10)%N then ascii_of_N (48 + d) else ascii_of_N (87 + d).

Fixpoint hex_digits (k : nat) (v : N) (acc : string) : string :=
  match k with
  | O => acc
  | S k' => hex_digits k' (v / 16)%N (String (hex_digit (v mod 16)%N) acc)
  end.

Definition short_id (uuid : N) : string :=
  hex_digits 8 ((uuid / 2 ^ 96) mod 2 ^ 32)%N "".
Arguments short_id : simpl never.

(** ** 1. The linked patient queue *)

Record PatientNode := mkPatientNode {
  patient_id : string;
  name : string;
  condition : string;
  next : option nat
}.

Definition set_next (nx : option nat) (n : PatientNode) : PatientNode :=
  {| patient_id := patient_id n; name := name n;
     condition := condition n; next := nx |}.

(** [PatientNode.to_dict]: the fields shown to a client. *)
Definition to_dict (n : PatientNode) : string * string * string :=
  (patient_id n, name n, condition n).

Record PatientQueue := mkPatientQueue {
  store : list PatientNode;     (* the node objects, by address *)
  head : option nat;
  tail : option nat;
  size : Z
}.

Module Queue.

Definition new : PatientQueue :=
  {| store := []; head := None; tail := None; size := 0 |}.

Definition is_empty (q : PatientQueue) : bool :=
  match head q with None => true | Some _ => false end.

(** [enqueue]: returns the reference of the node it created. *)
Definition enqueue (uuid : N) (nm cond : string) (q : PatientQueue)
  : nat * PatientQueue :=
  let a := length (store q) in
  let st := store q ++ [mkPatientNode (short_id uuid) nm cond None] in
  if is_empty q then
    (a, {| store := st; head := Some a; tail := Some a;
           size := size q + 1 |})
  else
    let st' := match tail q with
               | Some t => alter (set_next (Some a)) t st
               | None => st
               end in
    (a, {| store := st'; head := head q; tail := Some a;
           size := size q + 1 |}).

(** [dequeue]: the reference of the removed head, or [None]. *)
Definition dequeue (q : PatientQueue)
  : outcome (option nat) * PatientQueue :=
  if is_empty q then (Ret None, q)
  else
    match head q with
    | None => (Ret None, q)
    | Some h =>
        match store q !! h with
        | None => (Exc (BadRef h), q)
        | Some n =>
            let hd := next n in
            let tl := match hd with None => None | Some _ => tail q end in
            (Ret (Some h),
             {| store := store q; head := hd; tail := tl;
                size := size q - 1 |})
        end
    end.

(** [to_list]: the nodes met from [head] along [next].  The source loop
    runs while [current] is not [None]; the fuel is the size of the
    store, which bounds the length of any chain without a cycle. *)
Fixpoint walk (fuel : nat) (st : list PatientNode) (cur : option nat)
  : list PatientNode :=
  match fuel, cur with
  | S f, Some a =>
      match st !! a with
      | Some n => n :: walk f st (next n)
      | None => []
      end
  | _, _ => []
  end.

Definition to_list (q : PatientQueue) : list (string * string * string) :=
  to_dict <$> walk (length (store q)) (store q) (head q).

End Queue.

(** ** 2. The treatment stack (one ledger per patient) *)

(** An element of [_items]: the dictionary with the keys ["timestamp"] and
    ["detail"].  [detail] is whatever the caller passed; the request
    handler passes [None] when the field is absent. *)
Record TreatmentEntry := mkTreatmentEntry {
  timestamp : string;
  detail : option string
}.

Record TreatmentStack := mkTreatmentStack {
  _items : list TreatmentEntry;
  stack_patient_id : option string;
  initial_condition : string;
  status : string;
  assigned_doctor : option string
}.

Module Stack.

Definition new : TreatmentStack :=
  {| _items := []; stack_patient_id := None; initial_condition := "";
     status := "Waiting"; assigned_doctor := None |}.

Definition set_items (l : list TreatmentEntry) (r : TreatmentStack) :=
  {| _items := l; stack_patient_id := stack_patient_id r;
     initial_condition := initial_condition r; status := status r;
     assigned_doctor := assigned_doctor r |}.

Definition set_patient_id (i : option string) (r : TreatmentStack) :=
  {| _items := _items r; stack_patient_id := i;
     initial_condition := initial_condition r; status := status r;
     assigned_doctor := assigned_doctor r |}.

Definition set_initial_condition (c : string) (r : TreatmentStack) :=
  {| _items := _items r; stack_patient_id := stack_patient_id r;
     initial_condition := c; status := status r;
     assigned_doctor := assigned_doctor r |}.

Definition set_status (st : string) (r : TreatmentStack) :=
  {| _items := _items r; stack_patient_id := stack_patient_id r;
     initial_condition := initial_condition r; status := st;
     assigned_doctor := assigned_doctor r |}.

Definition set_assigned_doctor (d : option string) (r : TreatmentStack) :=
  {| _items := _items r; stack_patient_id := stack_patient_id r;
     initial_condition := initial_condition r; status := status r;
     assigned_doctor := d |}.

(** [push]: [now] is the formatted wall-clock time. *)
Definition push (now : string) (treatment_detail : option string)
    (r : TreatmentStack) : TreatmentStack :=
  set_items (_items r ++ [mkTreatmentEntry now treatment_detail]) r.

(** [list.pop()] of a non-empty list: its last element and the rest. *)
Fixpoint list_pop (l : list TreatmentEntry)
  : option (TreatmentEntry * list TreatmentEntry) :=
  match l with
  | [] => None
  | [x] => Some (x, [])
  | x :: l' =>
      match list_pop l' with
      | Some (y, r) => Some (y, x :: r)
      | None => None
      end
  end.

Definition pop (r : TreatmentStack)
  : option TreatmentEntry * TreatmentStack :=
  match list_pop (_items r) with
  | None => (None, r)
  | Some (e, rest) => (Some e, set_items rest r)
  end.

Definition get_history (r : TreatmentStack) : list TreatmentEntry :=
  _items r.

End Stack.

(** ** 3. The specialization tree *)

(** [str.lower].  The properties proved below hold for every such function;
    [ascii_lower] is the one used to run the model on ASCII text. *)
Class StrLower := lower : string → string.

Definition lower_ascii (c : ascii) : ascii :=
  let n := N_of_ascii c in
  if ((65 <=? n) && (n <=? 90))%N then ascii_of_N (n + 32) else c.

Fixpoint lower_string (s : string) : string :=
  match s with
  | EmptyString => EmptyString
  | String c s' => String (lower_ascii c) (lower_string s')
  end.

Definition ascii_lower : StrLower := lower_string.

(** A node; [doctors] is the dictionary [{name: description}] in insertion
    order, which is the order its serialization shows. *)
#[local] Unset Elimination Schemes.
Inductive SpecializationNode := mkSpecializationNode {
  spec_name : string;
  doctors : list (string * string);
  children : list SpecializationNode
}.
#[local] Set Elimination Schemes.

(** [d[k] = v] on an insertion-ordered dictionary: an existing key keeps
    its place, a new key goes last. *)
Fixpoint dict_set (k v : string) (d : list (string * string))
  : list (string * string) :=
  match d with
  | [] => [(k, v)]
  | (k', v') :: d' =>
      if String.eqb k' k then (k', v) :: d' else (k', v') :: dict_set k v d'
  end.

Module Tree.

(** [_find_node]: depth-first, the node itself before its children, the
    children in list order, the first match wins.  The node object it
    returns is given as the path of child indices leading to it from
    [current_node]; [subtree] reads the node at a path and [update_at]
    writes it. *)
Fixpoint _find_node `{StrLower} (current_node : SpecializationNode)
    (nm : string) : option (list nat) :=
  if String.eqb (lower (spec_name current_node)) (lower nm) then Some []
  else
    (fix each (cs : list SpecializationNode) (i : nat)
       : option (list nat) :=
       match cs with
       | [] => None
       | child :: cs' =>
           match _find_node child nm with
           | Some p => Some (i :: p)
           | None => each cs' (S i)
           end
       end) (children current_node) O.

Fixpoint subtree (p : list nat) (t : SpecializationNode)
  : option SpecializationNode :=
  match p with
  | [] => Some t
  | i :: p' =>
      match children t !! i with
      | Some c => subtree p' c
      | None => None
      end
  end.

Fixpoint update_at (p : list nat)
    (f : SpecializationNode → SpecializationNode)
    (t : SpecializationNode) : SpecializationNode :=
  match p with
  | [] => f t
  | i :: p' =>
      {| spec_name := spec_name t; doctors := doctors t;
         children := alter (update_at p' f) i (children t) |}
  end.

Definition new_node (nm : string) : SpecializationNode :=
  {| spec_name := nm; doctors := []; children := [] |}.

Definition append_child (c : SpecializationNode) (t : SpecializationNode) :=
  {| spec_name := spec_name t; doctors := doctors t;
     children := children t ++ [c] |}.

Definition put_doctor (d desc : string) (t : SpecializationNode) :=
  {| spec_name := spec_name t; doctors := dict_set d desc (doctors t);
     children := children t |}.

Definition add_specialization `{StrLower} (parent_name child_name : string)
    (root : SpecializationNode) : bool * SpecializationNode :=
  match _find_node root parent_name with
  | Some p => (true, update_at p (append_child (new_node child_name)) root)
  | None => (false, root)
  end.

Definition assign_doctor `{StrLower}
    (specialization_name doctor_name description : string)
    (root : SpecializationNode) : bool * SpecializationNode :=
  match _find_node root specialization_name with
  | Some p => (true, update_at p (put_doctor doctor_name description) root)
  | None => (false, root)
  end.

(** The seed script, as the list of its calls. *)
Inductive seed_call :=
| AddSpec (parent child : string)
| AddDoctor (spec doctor description : string).

Definition seed_script (root_name : string) : list seed_call :=
  [ AddSpec root_name "Emergency";
    AddSpec root_name "Internal Medicine";
    AddSpec root_name "Surgery";
    AddSpec "Internal Medicine" "Cardiology";
    AddSpec "Internal Medicine" "Dermatology";
    AddSpec "Internal Medicine" "Pediatrics";
    AddSpec "Surgery" "Orthopedics";
    AddSpec "Cardiology" "Electrophysiology";
    AddSpec "Orthopedics" "Sports Medicine";
    AddSpec "Emergency" "Trauma";
    AddDoctor "Emergency" "Dr. Ramon Cruz"
      "Specializes in immediate care and triage management.";
    AddDoctor "Emergency" "Dra. Sofia Reyes"
      "Lead physician for non-critical emergency cases.";
    AddDoctor "Trauma" "Dr. Paolo Ocampo"
      "Expert in severe physical injury and complex trauma protocols.";
    AddDoctor "Trauma" "Dra. Lea Perez"
      "Focuses on stabilization and surgical planning for acute trauma.";
    AddDoctor "Internal Medicine" "Dr. Antonio Dizon"
      "General internal medicine and chronic disease management.";
    AddDoctor "Internal Medicine" "Dra. Maria Santos"
      "Focuses on diagnostic challenges and long-term adult care.";
    AddDoctor "Cardiology" "Dr. Jose Garcia"
      "Non-invasive cardiology and heart disease prevention.";
    AddDoctor "Electrophysiology" "Dra. Christine Lopez"
      "Specialist in heart rhythm disorders and pacemaker implantation.";
    AddDoctor "Dermatology" "Dra. Elena Mendoza"
      "Expert in complex skin conditions and dermatological procedures.";
    AddDoctor "Pediatrics" "Dra. Leila Gonzales"
      "Dedicated to pediatric primary care and infectious diseases in children.";
    AddDoctor "Surgery" "Dr. Roberto Lim"
      "General surgeon with focus on abdominal and soft tissue procedures.";
    AddDoctor "Orthopedics" "Dra. Carmen Ramos"
      "Specialist in joint replacement and geriatric orthopedic care.";
    AddDoctor "Sports Medicine" "Dr. Miguel Dela Cruz"
      "Expert in musculoskeletal injuries and rehabilitation." ].

Definition seed_step `{StrLower} (root : SpecializationNode)
    (c : seed_call) : SpecializationNode :=
  match c with
  | AddSpec p ch => snd (add_specialization p ch root)
  | AddDoctor sp d desc => snd (assign_doctor sp d desc root)
  end.

Definition _seed_structure `{StrLower} (root : SpecializationNode)
  : SpecializationNode :=
  foldl seed_step root (seed_script (spec_name root)).

(** [SpecializationTree.__init__] *)
Definition new `{StrLower} (hospital_name : string) : SpecializationNode :=
  _seed_structure (new_node hospital_name).

End Tree.

(** ** 4. The facade *)

Record HospitalManagementSystem := mkHMS {
  hospital_name : string;
  patient_queue : PatientQueue;
  patient_records : gmap string TreatmentStack;
  specializations : SpecializationNode;
  current_treatment_id : option string;
  current_patient_name : option string;
  current_patient_condition : option string;
  current_patient_doctor : option string
}.

Module HMS.

Definition set_queue (q : PatientQueue) (s : HospitalManagementSystem) :=
  {| hospital_name := hospital_name s; patient_queue := q;
     patient_records := patient_records s;
     specializations := specializations s;
     current_treatment_id := current_treatment_id s;
     current_patient_name := current_patient_name s;
     current_patient_condition := current_patient_condition s;
     current_patient_doctor := current_patient_doctor s |}.

Definition set_records (m : gmap string TreatmentStack)
    (s : HospitalManagementSystem) :=
  {| hospital_name := hospital_name s; patient_queue := patient_queue s;
     patient_records := m;
     specializations := specializations s;
     current_treatment_id := current_treatment_id s;
     current_patient_name := current_patient_name s;
     current_patient_condition := current_patient_condition s;
     current_patient_doctor := current_patient_doctor s |}.

Definition set_slot (i n c d : option string)
    (s : HospitalManagementSystem) :=
  {| hospital_name := hospital_name s; patient_queue := patient_queue s;
     patient_records := patient_records s;
     specializations := specializations s;
     current_treatment_id := i;
     current_patient_name := n;
     current_patient_condition := c;
     current_patient_doctor := d |}.

(** The ledger created for a queue node: a new [TreatmentStack] whose
    [patient_id] and [initial_condition] are then assigned. *)
Definition new_record (pid cond : string) : TreatmentStack :=
  Stack.set_initial_condition cond
    (Stack.set_patient_id (Some pid) Stack.new).

(** [__init__]: [uuid1] and [uuid2] are the two identifiers drawn for the
    pre-loaded patients.  [p1.patient_id] and [p1.condition] are what the
    first [enqueue] was given, [short_id uuid1] and "Severe fever"; the
    same for [p2]. *)
Definition init `{StrLower} (hname : string) (uuid1 uuid2 : N)
  : HospitalManagementSystem :=
  let '(_, q1) :=
    Queue.enqueue uuid1 "Alice Johnson" "Severe fever" Queue.new in
  let '(_, q2) := Queue.enqueue uuid2 "Bob Davis" "Broken arm" q1 in
  let recs1 : gmap string TreatmentStack :=
    <[short_id uuid1 := new_record (short_id uuid1) "Severe fever"]> ∅ in
  let recs2 :=
    <[short_id uuid2 := new_record (short_id uuid2) "Broken arm"]> recs1 in
  {| hospital_name := hname; patient_queue := q2;
     patient_records := recs2;
     specializations := Tree.new hname;
     current_treatment_id := None;
     current_patient_name := None;
     current_patient_condition := None;
     current_patient_doctor := None |}.

Definition register_patient (uuid : N) (nm cond : string)
    (s : HospitalManagementSystem)
  : outcome string * HospitalManagementSystem :=
  let '(a, q) := Queue.enqueue uuid nm cond (patient_queue s) in
  let s1 := set_queue q s in
  match store q !! a with
  | None => (Exc (BadRef a), s1)
  | Some new_patient =>
      let new_record := new_record (patient_id new_patient) cond in
      (Ret (patient_id new_patient),
       set_records
         (<[patient_id new_patient := new_record]> (patient_records s1))
         s1)
  end.

Definition treat_next_patient (now : string)
    (s : HospitalManagementSystem)
  : outcome (option string) * HospitalManagementSystem :=
  let '(r, q) := Queue.dequeue (patient_queue s) in
  let s1 := set_queue q s in
  match r with
  | Exc e => (Exc e, s1)
  | Ret patient =>
      let s2 := set_slot None None None None s1 in
      match patient with
      | None => (Ret None, s2)
      | Some a =>
          match store q !! a with
          | None => (Exc (BadRef a), s2)
          | Some p =>
              let s3 :=
                set_slot (Some (patient_id p)) (Some (name p))
                  (Some (condition p)) None s2 in
              match patient_records s3 !! patient_id p with
              | None => (Exc (KeyError (patient_id p)), s3)
              | Some record =>
                  let record1 := Stack.set_status "In Treatment" record in
                  let record2 :=
                    Stack.push now
                      (Some (String.append "Initial Triage for "
                               (String.append (condition p) ".")))
                      record1 in
                  (Ret (Some (patient_id p)),
                   set_records
                     (<[patient_id p := record2]> (patient_records s3)) s3)
              end
          end
      end
  end.

Definition add_treatment_step (now : string) (dt : option string)
    (s : HospitalManagementSystem)
  : outcome bool * HospitalManagementSystem :=
  if negb (truthy (current_treatment_id s)) then (Ret false, s)
  else
    match current_treatment_id s with
    | None => (Ret false, s)
    | Some i =>
        match patient_records s !! i with
        | None => (Exc (KeyError i), s)
        | Some record =>
            (Ret true,
             set_records (<[i := Stack.push now dt record]>
                            (patient_records s)) s)
        end
    end.

Definition undo_last_treatment (s : HospitalManagementSystem)
  : outcome bool * HospitalManagementSystem :=
  if negb (truthy (current_treatment_id s)) then (Ret false, s)
  else
    match current_treatment_id s with
    | None => (Ret false, s)
    | Some i =>
        match patient_records s !! i with
        | None => (Exc (KeyError i), s)
        | Some record =>
            let '(popped, record') := Stack.pop record in
            (Ret (bool_decide (popped ≠ None)),
             set_records (<[i := record']> (patient_records s)) s)
        end
    end.

Definition assign_doctor_to_current (doctor_name : option string)
    (s : HospitalManagementSystem)
  : outcome bool * HospitalManagementSystem :=
  if negb (truthy (current_treatment_id s)) then (Ret false, s)
  else
    match current_treatment_id s with
    | None => (Ret false, s)
    | Some i =>
        match patient_records s !! i with
        | None => (Exc (KeyError i), s)
        | Some record =>
            (Ret true,
             set_records
               (<[i := Stack.set_assigned_doctor doctor_name record]>
                  (patient_records s)) s)
        end
    end.

(** [get_patient_name_by_id]: scan of the queue, then the placeholder. *)
Definition get_patient_name_by_id (pid : string)
    (s : HospitalManagementSystem) : string :=
  let q := patient_queue s in
  match
    List.find (fun n => String.eqb (patient_id n) pid)
      (Queue.walk (length (store q)) (store q) (head q))
  with
  | Some n => name n
  | None => String.append "Patient " pid
  end.

(** The single element of ["full_visits"]. *)
Record visit := mkVisit {
  registration_time : string;
  visit_condition : string;
  visit_status : string;
  visit_assigned_doctor : option string;
  treatment_history : list TreatmentEntry
}.

Record patient_record := mkPatientRecord {
  record_id : string;
  record_name : string;
  full_visits : list visit
}.

Definition get_patient_record (pid : string)
    (s : HospitalManagementSystem) : option patient_record :=
  match patient_records s !! pid with
  | None => None
  | Some record =>
      Some {| record_id := pid;
              record_name := get_patient_name_by_id pid s;
              full_visits :=
                [ {| registration_time :=
                       match Stack.get_history record with
                       | e :: _ => timestamp e
                       | [] => "N/A"
                       end;
                     visit_condition := initial_condition record;
                     visit_status := status record;
                     visit_assigned_doctor := assigned_doctor record;
                     treatment_history := Stack.get_history record |} ] |}
  end.

(** The operations that change the state, with the values drawn from the
    environment, and the state each leaves behind. *)
Inductive op :=
| RegisterPatient (uuid : N) (nm cond : string)
| TreatNextPatient (now : string)
| AddTreatmentStep (now : string) (dt : option string)
| UndoLastTreatment
| AssignDoctorToCurrent (doctor_name : option string).

Definition step (o : op) (s : HospitalManagementSystem)
  : HospitalManagementSystem :=
  match o with
  | RegisterPatient u n c => snd (register_patient u n c s)
  | TreatNextPatient now => snd (treat_next_patient now s)
  | AddTreatmentStep now d => snd (add_treatment_step now d s)
  | UndoLastTreatment => snd (undo_last_treatment s)
  | AssignDoctorToCurrent d => snd (assign_doctor_to_current d s)
  end.

(** Whether the operation completes without raising. *)
Definition returns (o : op) (s : HospitalManagementSystem) : bool :=
  match o with
  | RegisterPatient u n c =>
      match fst (register_patient u n c s) with Ret _ => true | _ => false end
  | TreatNextPatient now =>
      match fst (treat_next_patient now s) with Ret _ => true | _ => false end
  | AddTreatmentStep now d =>
      match fst (add_treatment_step now d s) with Ret _ => true | _ => false end
  | UndoLastTreatment =>
      match fst (undo_last_treatment s) with Ret _ => true | _ => false end
  | AssignDoctorToCurrent d =>
      match fst (assign_doctor_to_current d s) with Ret _ => true | _ => false end
  end.

Definition run (ops : list op) (s : HospitalManagementSystem)
  : HospitalManagementSystem :=
  foldl (fun s o => step o s) s ops.

(** The states reachable from construction. *)
Definition reachable `{StrLower} (s : HospitalManagementSystem) : Prop :=
  ∃ hname uuid1 uuid2 ops, s = run ops (init hname uuid1 uuid2).

(** Every identifier drawn by a registration of the run is new: it is
    not yet a key of [patient_records] when it is drawn. *)
Fixpoint fresh_ids (ops : list op) (s : HospitalManagementSystem) : Prop :=
  match ops with
  | [] => True
  | o :: ops' =>
      match o with
      | RegisterPatient u _ _ => patient_records s !! short_id u = None
      | _ => True
      end ∧ fresh_ids ops' (step o s)
  end.

(** The dictionary returned by [get_status_data]. *)
Record status_data := mkStatusData {
  queue_size : Z;
  queue_data : list (string * string * string);
  current_patient_id : option string;
  status_patient_name : option string;
  status_patient_condition : option string;
  status_assigned_doctor : option string;
  history_data : list TreatmentEntry
}.

(** [get_status_data].  [patient_records.get(None)] is [None]: the keys of
    the dictionary are strings. *)
Definition get_status_data (s : HospitalManagementSystem) : status_data :=
  let current_record :=
    match current_treatment_id s with
    | Some i => patient_records s !! i
    | None => None
    end in
  {| queue_size := size (patient_queue s);
     queue_data := Queue.to_list (patient_queue s);
     current_patient_id := current_treatment_id s;
     status_patient_name := current_patient_name s;
     status_patient_condition := current_patient_condition s;
     status_assigned_doctor :=
       match current_record with
       | Some r => assigned_doctor r
       | None => None
       end;
     history_data :=
       match current_record with
       | Some r => Stack.get_history r
       | None => []
       end |}.

End HMS.

(** ** 5. The request handlers of [app.py] that guard the facade *)

Module App.

(** The text of a response: a literal, or the prefix of an [except]
    branch followed by [str(e)] of the exception it caught. *)
Inductive message :=
| Text (s : string)
| Failure (prefix : string) (e : exn).

(** [jsonify({"status": .., "message": ..}), code] *)
Record response := mkResponse {
  resp_status : string;
  resp_message : message;
  resp_code : Z
}.

(** [str(x)] inside an f-string, for an [Optional[str]]. *)
Definition py_str (o : option string) : string :=
  match o with Some s => s | None => "None" end.

(** [POST /api/undo_treatment] *)
Definition undo_treatment (hms : HospitalManagementSystem)
  : response * HospitalManagementSystem :=
  if negb (truthy (current_treatment_id hms)) then
    (mkResponse "error"
       (Text "No patient currently selected for treatment.") 400, hms)
  else
    match HMS.undo_last_treatment hms with
    | (Ret true, hms') =>
        (mkResponse "info"
           (Text "Last treatment step successfully undone.") 200, hms')
    | (Ret false, hms') =>
        (mkResponse "info"
           (Text "Treatment history is empty. Nothing to undo.") 200, hms')
    | (Exc e, hms') =>
        (mkResponse "error" (Failure "Undo failed: " e) 200, hms')
    end.

(** [POST /api/assign_doctor].  [body] is [request.json]: the decoded
    JSON object, or nothing when the request carries none, in which case
    reading it raises inside the [try]. *)
Definition assign_doctor (body : option (gmap string string))
    (hms : HospitalManagementSystem)
  : response * HospitalManagementSystem :=
  match body with
  | None =>
      (mkResponse "error" (Failure "Assignment failed: " BadRequest) 200,
       hms)
  | Some data =>
      let doctor_name := data !! "doctor_name" in
      if negb (truthy (current_treatment_id hms)) then
        (mkResponse "error"
           (Text "Please start treating a patient first.") 400, hms)
      else
        match HMS.assign_doctor_to_current doctor_name hms with
        | (Ret true, hms') =>
            (mkResponse "success"
               (Text (String.append "Doctor "
                        (String.append (py_str doctor_name)
                           " assigned to current patient."))) 200, hms')
        | (Ret false, hms') =>
            (mkResponse "error" (Text "Failed to assign doctor.") 500, hms')
        | (Exc e, hms') =>
            (mkResponse "error" (Failure "Assignment failed: " e) 200,
             hms')
        end
  end.

(** [POST /api/register].  [uuid] is the identifier drawn by the
    [enqueue] the facade performs. *)
Definition register_patient (body : option (gmap string string)) (uuid : N)
    (hms : HospitalManagementSystem)
  : response * HospitalManagementSystem :=
  match body with
  | None =>
      (mkResponse "error" (Failure "Registration failed: " BadRequest) 200,
       hms)
  | Some data =>
      let nm := data !! "name" in
      let cond := data !! "condition" in
      match nm, cond with
      | Some n, Some c =>
          if negb (truthy nm) || negb (truthy cond) then
            (mkResponse "error" (Text "Missing name or condition.") 400, hms)
          else
            match HMS.register_patient uuid n c hms with
            | (Ret _, hms') =>
                (mkResponse "success"
                   (Text (String.append "Patient "
                            (String.append n
                               " registered to Triage queue."))) 200, hms')
            | (Exc e, hms') =>
                (mkResponse "error" (Failure "Registration failed: " e) 200,
                 hms')
            end
      | _, _ =>
          (mkResponse "error" (Text "Missing name or condition.") 400, hms)
      end
  end.

(** [POST /api/treat_next] *)
Definition treat_next (now : string) (hms : HospitalManagementSystem)
  : response * HospitalManagementSystem :=
  match HMS.treat_next_patient now hms with
  | (Ret patient_id, hms') =>
      if truthy patient_id then
        (mkResponse "success"
           (Text (String.append "Started treating patient ID: "
                    (py_str patient_id))) 200, hms')
      else
        (mkResponse "info" (Text "Queue is empty. No patient to treat.") 200,
         hms')
  | (Exc e, hms') =>
      (mkResponse "error" (Failure "Treatment start failed: " e) 200, hms')
  end.

(** [POST /api/add_treatment] *)
Definition add_treatment (body : option (gmap string string)) (now : string)
    (hms : HospitalManagementSystem)
  : response * HospitalManagementSystem :=
  match body with
  | None =>
      (mkResponse "error" (Failure "Adding treatment failed: " BadRequest)
         200, hms)
  | Some data =>
      let dt := data !! "detail" in
      if negb (truthy (current_treatment_id hms)) then
        (mkResponse "error"
           (Text "No patient currently selected for treatment.") 400, hms)
      else
        match HMS.add_treatment_step now dt hms with
        | (Ret true, hms') =>
            (mkResponse "success" (Text "Treatment step recorded.") 200, hms')
        | (Ret false, hms') =>
            (mkResponse "error" (Text "Failed to record treatment step.")
               500, hms')
        | (Exc e, hms') =>
            (mkResponse "error" (Failure "Adding treatment failed: " e) 200,
             hms')
        end
  end.

(** [GET /api/patient_record/<patient_id>]: the record, or the 404
    response. *)
Definition get_patient_record (pid : string)
    (hms : HospitalManagementSystem) : HMS.patient_record + response :=
  match HMS.get_patient_record pid hms with
  | Some record => inl record
  | None =>
      inr (mkResponse "error" (Text "Patient record not found.") 404)
  end.

(** What a page handler returns: a redirect to an endpoint, or a rendered
    template with the [error] it was given. *)
Inductive page :=
| Redirect (endpoint : string)
| Render (template : string) (error : option string).


(** The users known to the login page, and the session of a client. *)
Record user := mkUser {
  username : string;
  password : string
}.

Definition MOCK_USERS : list user := [mkUser "admin" "password123"].

Record session := mkSession {
  logged_in : bool;                    (* the key is present, with [True] *)
  session_username : option string
}.

(** Comparison of a stored string with a form field, which is [None] when
    the form lacks it. *)
Definition field_eq (s : string) (f : option string) : bool :=
  match f with Some x => String.eqb s x | None => false end.

(** [/login].  [post] tells a [POST] from a [GET]; [u], [p] are the form
    fields. *)
Definition login_page (post : bool) (u p : option string)
    (users : list user) (sess : session) : page * session :=
  if post then
    match List.find (fun usr => field_eq (username usr) u
                                && field_eq (password usr) p) users with
    | Some _ =>
        (Redirect "main_app_page",
         {| logged_in := true; session_username := u |})
    | None =>
        (Render "login.html" (Some "Invalid Credentials. Please try again."),
         sess)
    end
  else (Render "login.html" None, sess).

(** [/register]: the page and the list of users it leaves. *)
Definition register_page (post : bool) (u p : option string)
    (users : list user) : page * list user :=
  if post then
    match u, p with
    | Some un, Some pw =>
        if negb (truthy u) || negb (truthy p) then
          (Render "register.html"
             (Some "Username and password are required."), users)
        else if existsb (fun usr => String.eqb (username usr) un) users then
          (Render "register.html"
             (Some "Username already exists. Please choose another."), users)
        else (Redirect "login_page", users ++ [mkUser un pw])
    | _, _ =>
        (Render "register.html"
           (Some "Username and password are required."), users)
    end
  else (Render "register.html" None, users).

(** [/logout] *)
Definition logout (sess : session) : page * session :=
  (Redirect "login_page", {| logged_in := false; session_username := None |}).

(** A run of registration requests. *)
Definition register_all (reqs : list (option string * option string))
    (users : list user) : list user :=
  foldl (fun us r => snd (register_page true (fst r) (snd r) us)) users reqs.

End App.

(** ** Runs of the queue and of the stack *)

Module QueueRun.

Inductive qop :=
| Enq (uuid : N) (nm cond : string)
| Deq.

Definition qstep (q : PatientQueue) (o : qop) : PatientQueue :=
  match o with
  | Enq u n c => snd (Queue.enqueue u n c q)
  | Deq => snd (Queue.dequeue q)
  end.

Definition qrun (ops : list qop) (q : PatientQueue) : PatientQueue :=
  foldl qstep q ops.

(** What one [dequeue] hands to its caller: the fields of the node it
    returned, or [None] for the empty signal. *)
Definition dequeued (q : PatientQueue) : option (string * string * string) :=
  match fst (Queue.dequeue q) with
  | Ret (Some a) => to_dict <$> store q !! a
  | _ => None
  end.

(** [k] successive calls of [dequeue] and what each returned. *)
Fixpoint drain (k : nat) (q : PatientQueue)
  : list (option (string * string * string)) :=
  match k with
  | O => []
  | S k' => dequeued q :: drain k' (snd (Queue.dequeue q))
  end.

Definition entry_of (e : N * string * string) : string * string * string :=
  let '(u, n, c) := e in (short_id u, n, c).

Definition enq_of (e : N * string * string) : qop :=
  let '(u, n, c) := e in Enq u n c.

(** Number of [enqueue] calls of a run. *)
Fixpoint enqueues (ops : list qop) : Z :=
  match ops with
  | [] => 0
  | Enq _ _ _ :: ops' => 1 + enqueues ops'
  | Deq :: ops' => enqueues ops'
  end.

(** Number of [dequeue] calls of a run from [q] that returned a node. *)
Fixpoint dequeues (ops : list qop) (q : PatientQueue) : Z :=
  match ops with
  | [] => 0
  | o :: ops' =>
      (match o with
       | Deq =>
           match fst (Queue.dequeue q) with
           | Ret (Some _) => 1
           | _ => 0
           end
       | Enq _ _ _ => 0
       end) + dequeues ops' (qstep q o)
  end.

End QueueRun.

Module StackRun.

Definition push_all (es : list (string * option string))
    (r : TreatmentStack) : TreatmentStack :=
  foldl (fun r e => Stack.push (fst e) (snd e) r) r es.

(** [k] successive calls of [pop]: what each returned, and the stack
    left. *)
Fixpoint pop_n (k : nat) (r : TreatmentStack)
  : list (option TreatmentEntry) * TreatmentStack :=
  match k with
  | O => ([], r)
  | S k' =>
      let '(e, r1) := Stack.pop r in
      let '(es, r2) := pop_n k' r1 in
      (e :: es, r2)
  end.

Definition entry_of (e : string * option string) : TreatmentEntry :=
  mkTreatmentEntry (fst e) (snd e).

End StackRun.

(** ** Representation predicates and invariants *)

(** [chain st from l]: following [next] from [from] in the store [st]
    visits exactly the addresses [l] and then reaches [None]. *)
Fixpoint chain (st : list PatientNode) (from : option nat) (l : list nat)
  : Prop :=
  match l with
  | [] => from = None
  | a :: l' => from = Some a ∧ ∃ n, st !! a = Some n ∧ chain st (next n) l'
  end.

(** The queue object represents the sequence of node addresses [l]. *)
Definition queue_repr (q : PatientQueue) (l : list nat) : Prop :=
  chain (store q) (head q) l ∧
  tail q = last l ∧
  size q = Z.of_nat (length l) ∧
  NoDup l.

(** The nodes stored at a list of addresses. *)
Definition nodes_at (st : list PatientNode) (l : list nat)
  : list PatientNode :=
  omap (fun a => st !! a) l.

(** The facade invariant: the queue is well formed, every identifier is an
    eight-character token, and the identifiers of the waiting patients and
    of the current patient are keys of [patient_records]. *)
Definition hms_inv (s : HospitalManagementSystem) : Prop :=
  (∃ l, queue_repr (patient_queue s) l ∧
        ∀ a n, a ∈ l → store (patient_queue s) !! a = Some n →
               is_Some (patient_records s !! patient_id n)) ∧
  (∀ a n, store (patient_queue s) !! a = Some n →
          String.length (patient_id n) = 8%nat) ∧
  (∀ i, current_treatment_id s = Some i →
        String.length i = 8%nat ∧ is_Some (patient_records s !! i)).

(** The current-treatment slot is empty, or it is populated and names a
    ledger that is in treatment. *)
Definition slot_ok (s : HospitalManagementSystem) : Prop :=
  (current_treatment_id s = None ∧
   current_patient_name s = None ∧
   current_patient_condition s = None)
  ∨
  (∃ i n c r,
      current_treatment_id s = Some i ∧
      current_patient_name s = Some n ∧
      current_patient_condition s = Some c ∧
      patient_records s !! i = Some r ∧
      status r = "In Treatment").

(** The names of the nodes of a tree in the order in which a depth-first
    search visits them: a node before its children, the children in list
    order. *)
Fixpoint preorder (t : SpecializationNode) : list string :=
  spec_name t :: concat (preorder <$> children t).

(** The loop of [_find_node] over the children, from index [i]. *)
Fixpoint find_each `{StrLower} (nm : string) (cs : list SpecializationNode)
    (i : nat) : option (list nat) :=
  match cs with
  | [] => None
  | child :: cs' =>
      match Tree._find_node child nm with
      | Some p => Some (i :: p)
      | None => find_each nm cs' (S i)
      end
  end.

(** The nodes of a tree with the path of each, in the order in which a
    depth-first search visits them. *)
Fixpoint preorder_paths (t : SpecializationNode)
  : list (list nat * SpecializationNode) :=
  ([], t) ::
  (fix each (cs : list SpecializationNode) (i : nat) :=
     match cs with
     | [] => []
     | c :: cs' =>
         (prod_map (cons i) id <$> preorder_paths c) ++ each cs' (S i)
     end) (children t) O.

(** The loop of [preorder_paths] over the children, from index [i]. *)
Fixpoint paths_each (cs : list SpecializationNode) (i : nat)
  : list (list nat * SpecializationNode) :=
  match cs with
  | [] => []
  | c :: cs' => (prod_map (cons i) id <$> preorder_paths c)
                ++ paths_each cs' (S i)
  end.

(** Whether a node answers a search for [nm]. *)
Definition matches `{StrLower} (nm : string)
    (pn : list nat * SpecializationNode) : bool :=
  String.eqb (lower (spec_name (snd pn))) (lower nm).

(** The value of a key in an insertion-ordered dictionary. *)
Fixpoint dict_get (k : string) (d : list (string * string)) : option string :=
  match d with
  | [] => None
  | (k', v) :: d' => if String.eqb k' k then Some v else dict_get k d'
  end.

(** Every ledger has one of the two statuses the facade writes, carries
    the key it is stored under, and a ledger still waiting has no history
    and no doctor. *)
Definition ledger_ok (i : string) (r : TreatmentStack) : Prop :=
  stack_patient_id r = Some i ∧
  (status r = "Waiting" ∨ status r = "In Treatment").

Definition waiting_untouched (r : TreatmentStack) : Prop :=
  status r = "Waiting" → _items r = [] ∧ assigned_doctor r = None.

(** The list of users is in order: names pairwise different, no empty
    name or password. *)
Definition users_ok (users : list App.user) : Prop :=
  NoDup (App.username <$> users) ∧
  Forall (λ usr, App.username usr ≠ "" ∧ App.password usr ≠ "") users.

(** The names the seed script gives to departments. *)
Definition departments : list string :=
  [ "Emergency"; "Internal Medicine"; "Surgery"; "Cardiology";
    "Dermatology"; "Pediatrics"; "Orthopedics"; "Electrophysiology";
    "Sports Medicine"; "Trauma" ].

(** The identifiers drawn by the registrations of a run. *)
Definition drawn_ids (ops : list HMS.op) : list string :=
  omap (fun o => match o with
                 | HMS.RegisterPatient u _ _ => Some (short_id u)
                 | _ => None
                 end) ops.

(** Successive calls of [treat_next_patient], one per time given, and what
    each returned. *)
Fixpoint treat_all (nows : list string) (s : HospitalManagementSystem)
  : list (outcome (option string)) :=
  match nows with
  | [] => []
  | now :: nows' =>
      fst (HMS.treat_next_patient now s)
      :: treat_all nows' (snd (HMS.treat_next_patient now s))
  end.

(** The node a seed call looks for, and the effect of a seed call on the
    children of a root that the call does not name. *)
Definition call_target (c : Tree.seed_call) : string :=
  match c with
  | Tree.AddSpec parent _ => parent
  | Tree.AddDoctor sp _ _ => sp
  end.

Definition forest_step `{StrLower} (cs : list SpecializationNode)
    (c : Tree.seed_call) : list SpecializationNode :=
  match find_each (call_target c) cs 0 with
  | Some (i :: q) =>
      alter (Tree.update_at q
               (match c with
                | Tree.AddSpec _ child =>
                    Tree.append_child (Tree.new_node child)
                | Tree.AddDoctor _ d desc => Tree.put_doctor d desc
                end)) i cs
  | _ => cs
  end.

(** ** Lemmas on identifiers *)

Lemma hex_digits_length k v acc :
  String.length (hex_digits k v acc) = (k + String.length acc)%nat.
Proof.
  revert v acc. induction k as [|k IH]; intros v acc; simpl; [done|].
  rewrite IH. simpl. lia.
Qed.

Lemma short_id_length u : String.length (short_id u) = 8%nat.
Proof. unfold short_id. by rewrite hex_digits_length. Qed.

Lemma length8_truthy i : String.length i = 8%nat → truthy (Some i) = true.
Proof. destruct i; simpl; [discriminate | done]. Qed.

(** ** Lemmas on the linked queue *)

Lemma chain_lt st from l a :
  chain st from l → a ∈ l → (a < length st)%nat.
Proof.
  revert from. induction l as [|b l IH]; intros from Hc Hin.
  - by apply elem_of_nil in Hin.
  - destruct Hc as [_ (n & Hn & Hc)].
    apply elem_of_cons in Hin as [->|Hin]; [by eapply lookup_lt_Some|eauto].
Qed.

(** Appending a node at a new address and linking it after the last node of
    a non-empty chain. *)
Lemma chain_snoc st from l t nw :
  chain st from l → NoDup l → last l = Some t → next nw = None →
  chain (alter (set_next (Some (length st))) t (st ++ [nw])) from
        (l ++ [length st]).
Proof.
  revert from. induction l as [|a l IH]; intros from Hc Hnd Hl Hnw;
    [done|].
  destruct Hc as [-> (n & Hn & Hc)].
  apply NoDup_cons in Hnd as [Hnotin Hnd].
  assert (Ha : (a < length st)%nat) by by eapply lookup_lt_Some.
  destruct l as [|b l].
  - simpl in Hl. injection Hl as <-. simpl in Hc.
    split; [done|]. exists (set_next (Some (length st)) n). split.
    + rewrite list_lookup_alter_eq, lookup_app_l, Hn; done.
    + simpl. split; [done|]. exists nw. split; [|done].
      rewrite list_lookup_alter_ne by lia.
      rewrite lookup_app_r by lia. by rewrite Nat.sub_diag.
  - assert (Ht : t ∈ b :: l).
    { change (last (a :: b :: l)) with (last (b :: l)) in Hl.
      apply last_Some in Hl as [l' Hl']. rewrite Hl'.
      apply elem_of_app. right. apply list_elem_of_here. }
    split; [done|]. exists n. split.
    + rewrite list_lookup_alter_ne by (intros ->; done).
      by rewrite lookup_app_l.
    + apply IH; done.
Qed.

Lemma queue_repr_new : queue_repr Queue.new [].
Proof. repeat split; simpl; try done. constructor. Qed.

Lemma queue_repr_empty q l :
  queue_repr q l → Queue.is_empty q = true → l = [].
Proof.
  intros (Hc & _) He. unfold Queue.is_empty in He.
  destruct l as [|a l]; [done|]. destruct Hc as [Hh _].
  by rewrite Hh in He.
Qed.

Lemma enqueue_fst u nm cond q :
  fst (Queue.enqueue u nm cond q) = length (store q).
Proof. unfold Queue.enqueue. by destruct (Queue.is_empty q). Qed.

Lemma enqueue_store_length u nm cond q :
  length (store (snd (Queue.enqueue u nm cond q))) = S (length (store q)).
Proof.
  unfold Queue.enqueue.
  destruct (Queue.is_empty q); simpl; [|destruct (tail q); simpl];
    rewrite ?length_alter, length_app; simpl; lia.
Qed.

(** The nodes already in the store keep their identity, name and
    condition: [enqueue] writes only a [next] field. *)
Lemma enqueue_store_old u nm cond q b n :
  store q !! b = Some n →
  ∃ n', store (snd (Queue.enqueue u nm cond q)) !! b = Some n' ∧
        patient_id n' = patient_id n ∧ name n' = name n ∧
        condition n' = condition n.
Proof.
  intros Hb. unfold Queue.enqueue.
  assert (Hb' : (store q ++ [mkPatientNode (short_id u) nm cond None]) !! b
                = Some n) by by apply lookup_app_l_Some.
  destruct (Queue.is_empty q); simpl; [eauto|].
  destruct (tail q) as [t|]; simpl; [|eauto].
  destruct (decide (t = b)) as [->|Hne].
  - rewrite list_lookup_alter_eq, Hb'. simpl. eauto.
  - rewrite list_lookup_alter_ne by done. eauto.
Qed.

Lemma enqueue_repr u nm cond q l :
  queue_repr q l →
  queue_repr (snd (Queue.enqueue u nm cond q)) (l ++ [length (store q)]) ∧
  store (snd (Queue.enqueue u nm cond q)) !! length (store q)
    = Some (mkPatientNode (short_id u) nm cond None).
Proof.
  intros (Hc & Ht & Hs & Hnd).
  assert (Hfresh : length (store q) ∉ l).
  { intros Hin. eapply chain_lt in Hin; [|done]. lia. }
  assert (Hnd' : NoDup (l ++ [length (store q)])).
  { apply NoDup_app. split_and!; [done| |apply NoDup_singleton].
    intros x Hx ->%list_elem_of_singleton. done. }
  unfold Queue.enqueue, Queue.is_empty.
  destruct l as [|a l].
  - simpl in Hc, Hs. rewrite Hc. simpl. split.
    + split_and!; simpl; [|done|lia|apply NoDup_singleton].
      split; [done|].
      exists (mkPatientNode (short_id u) nm cond None). split; [|done].
      rewrite lookup_app_r by lia. by rewrite Nat.sub_diag.
    + rewrite lookup_app_r by lia. by rewrite Nat.sub_diag.
  - pose proof Hc as [Hh _]. rewrite !Hh.
    destruct (last (a :: l)) as [t|] eqn:Hl.
    2:{ by apply last_None in Hl. }
    rewrite Ht. simpl store.
    assert (Htl : (t < length (store q))%nat).
    { eapply chain_lt; [done|]. apply last_Some in Hl as [l' ->].
      apply elem_of_app. right. apply list_elem_of_here. }
    split.
    + split_and!; cbn [head tail size store snd].
      * apply chain_snoc; [by rewrite <- Hh|done..].
      * by rewrite last_snoc.
      * rewrite length_app. simpl length. simpl length in Hs. lia.
      * done.
    + rewrite list_lookup_alter_ne by lia.
      rewrite lookup_app_r by lia. by rewrite Nat.sub_diag.
Qed.

Lemma dequeue_repr_nil q :
  queue_repr q [] → Queue.dequeue q = (Ret None, q).
Proof.
  intros (Hc & _). simpl in Hc. unfold Queue.dequeue, Queue.is_empty.
  by rewrite Hc.
Qed.

Lemma dequeue_repr_cons q a l :
  queue_repr q (a :: l) →
  ∃ q', Queue.dequeue q = (Ret (Some a), q') ∧
        queue_repr q' l ∧ store q' = store q.
Proof.
  intros ([Hh (n & Hn & Hc)] & Ht & Hs & Hnd).
  unfold Queue.dequeue, Queue.is_empty. rewrite Hh, Hn.
  eexists. split; [done|]. split; [|done].
  apply NoDup_cons in Hnd as [_ Hnd].
  split_and!; simpl; [done| |simpl in Hs; lia|done].
  destruct l as [|b l]; simpl in Hc.
  - by rewrite Hc.
  - destruct Hc as [-> _]. by rewrite Ht.
Qed.

Lemma NoDup_bounded_length (l : list nat) n :
  NoDup l → (∀ x, x ∈ l → (x < n)%nat) → (length l ≤ n)%nat.
Proof.
  intros Hnd Hlt.
  assert (Hsub : l ⊆+ seq 0 n).
  { apply NoDup_submseteq; [done|]. intros x Hx. apply elem_of_seq.
    specialize (Hlt x Hx). lia. }
  apply submseteq_length in Hsub. by rewrite length_seq in Hsub.
Qed.

Lemma walk_chain fuel st from l :
  chain st from l → (length l ≤ fuel)%nat →
  Queue.walk fuel st from = nodes_at st l.
Proof.
  revert from l. induction fuel as [|f IH]; intros from [|a l] Hc Hlen;
    simpl in *; try lia; try done.
  - by rewrite Hc.
  - destruct Hc as [-> (n & Hn & Hc)]. unfold nodes_at. simpl.
    rewrite Hn. simpl. f_equal. apply IH; [done|lia].
Qed.

Lemma walk_repr q l :
  queue_repr q l →
  Queue.walk (length (store q)) (store q) (head q) = nodes_at (store q) l.
Proof.
  intros (Hc & _ & _ & Hnd). apply walk_chain; [done|].
  apply NoDup_bounded_length; [done|]. intros x Hx. by eapply chain_lt.
Qed.

Lemma nodes_at_length st from l :
  chain st from l → length (nodes_at st l) = length l.
Proof.
  revert from. unfold nodes_at.
  induction l as [|a l IH]; intros from Hc; simpl; [done|].
  destruct Hc as [_ (n & Hn & Hc)]. rewrite Hn. simpl. f_equal. eauto.
Qed.

Lemma to_list_repr q l :
  queue_repr q l → Queue.to_list q = to_dict <$> nodes_at (store q) l.
Proof. intros H. unfold Queue.to_list. by rewrite (walk_repr q l). Qed.

Lemma nodes_at_cons st a n l :
  st !! a = Some n → nodes_at st (a :: l) = n :: nodes_at st l.
Proof. intros H. unfold nodes_at. simpl. by rewrite H. Qed.

Lemma nodes_at_app st l1 l2 :
  nodes_at st (l1 ++ l2) = nodes_at st l1 ++ nodes_at st l2.
Proof. apply omap_app. Qed.

(** ** Runs of the queue *)

Section queue_runs.
Import QueueRun.

Lemma qstep_repr q l o : queue_repr q l → ∃ l', queue_repr (qstep q o) l'.
Proof.
  intros H. destruct o as [u n c|]; simpl.
  - eexists. by apply enqueue_repr.
  - destruct l as [|a l].
    + rewrite (dequeue_repr_nil q H). eauto.
    + destruct (dequeue_repr_cons q a l H) as (q' & -> & H' & _). eauto.
Qed.

Lemma qrun_repr ops q l : queue_repr q l → ∃ l', queue_repr (qrun ops q) l'.
Proof.
  revert q l. induction ops as [|o ops IH]; intros q l H; simpl; [eauto|].
  destruct (qstep_repr q l o H) as [l' H']. eauto.
Qed.

Lemma qrun_size ops q l :
  queue_repr q l →
  size (qrun ops q) = Z.of_nat (length l) + enqueues ops - dequeues ops q.
Proof.
  revert q l. induction ops as [|o ops IH]; intros q l H.
  - simpl. destruct H as (_ & _ & -> & _). lia.
  - change (qrun (o :: ops) q) with (qrun ops (qstep q o)).
    destruct o as [u n c|].
    + pose proof (enqueue_repr u n c q l H) as [H' _].
      cbn [enqueues dequeues qstep]. rewrite (IH _ _ H').
      rewrite length_app. simpl length. lia.
    + cbn [enqueues dequeues qstep]. destruct l as [|a l].
      * rewrite (dequeue_repr_nil q H). cbn [fst snd].
        rewrite (IH _ _ H). lia.
      * destruct (dequeue_repr_cons q a l H) as (q' & -> & H' & _).
        cbn [fst snd]. rewrite (IH _ _ H'). simpl length. lia.
Qed.

Lemma drain_repr q l k :
  queue_repr q l →
  drain (length l + k) q
  = (Some <$> (to_dict <$> nodes_at (store q) l)) ++ replicate k None.
Proof.
  revert q. induction l as [|a l IH]; intros q H.
  - simpl. induction k as [|k IHk]; [done|]. simpl.
    unfold dequeued. rewrite (dequeue_repr_nil q H). simpl. by f_equal.
  - destruct (dequeue_repr_cons q a l H) as (q' & Hd & H' & Hst).
    pose proof H as ([_ (n & Hn & _)] & _).
    change (length (a :: l) + k)%nat with (S (length l + k)).
    cbn [drain]. unfold dequeued. rewrite Hd. cbn [fst snd].
    rewrite (nodes_at_cons _ _ _ _ Hn), Hn. cbn [fmap list_fmap option_fmap option_map app].
    f_equal. rewrite <- Hst. by apply IH.
Qed.

(** The addresses already queued show the same fields after an
    [enqueue]. *)
Lemma nodes_at_enqueue u nm cond q from l :
  chain (store q) from l →
  to_dict <$> nodes_at (store (snd (Queue.enqueue u nm cond q))) l
  = to_dict <$> nodes_at (store q) l.
Proof.
  revert from. induction l as [|a l IH]; intros from Hc; [done|].
  destruct Hc as [_ (n & Hn & Hc)].
  destruct (enqueue_store_old u nm cond q a n Hn) as (n' & Hn' & ? & ? & ?).
  rewrite (nodes_at_cons _ _ _ _ Hn), (nodes_at_cons _ _ _ _ Hn').
  simpl. f_equal; [|eauto]. unfold to_dict. congruence.
Qed.

Lemma enqueue_all_repr es q l :
  queue_repr q l →
  ∃ l', queue_repr (qrun (enq_of <$> es) q) l' ∧
        length l' = (length l + length es)%nat ∧
        to_dict <$> nodes_at (store (qrun (enq_of <$> es) q)) l'
        = (to_dict <$> nodes_at (store q) l) ++ (entry_of <$> es).
Proof.
  revert q l. induction es as [|[[u n] c] es IH]; intros q l H.
  - exists l. simpl. rewrite app_nil_r. split_and!; [done|lia|done].
  - pose proof (enqueue_repr u n c q l H) as [H' Hnew].
    destruct (IH _ _ H') as (l' & Hr & Hlen & Hd).
    exists l'. split_and!.
    + done.
    + rewrite Hlen, length_app. simpl. lia.
    + change (qrun (enq_of <$> (u, n, c) :: es) q)
        with (qrun (enq_of <$> es) (snd (Queue.enqueue u n c q))).
      rewrite Hd, nodes_at_app, fmap_app.
      destruct H as (Hc & _).
      rewrite (nodes_at_enqueue u n c q _ l Hc).
      rewrite (nodes_at_cons _ _ _ _ Hnew). simpl.
      by rewrite <- app_assoc.
Qed.

End queue_runs.

(** C3. Entries leave the queue in the order in which they entered it, and
    the [size] field counts the entries enqueued and not yet dequeued.
    (1) After any sequence [es] of [enqueue] calls on a new queue,
    [length es] calls of [dequeue] return the entries of [es] in arrival
    order and one more call returns the empty signal.
    (2) The same from any queue state [q0] reached by enqueues and
    dequeues: what [q0] already holds comes out first, in its order, then
    the entries of [es].
    (3) If [q0] is such a state in which the queue is empty, then after any
    further interleaving [ops] of enqueues and dequeues [size] is the
    number of enqueues of [ops] minus the number of its dequeues that
    returned an entry. *)
Theorem queue_fifo_and_size :
  (∀ es,
      QueueRun.drain (S (length es))
        (QueueRun.qrun (QueueRun.enq_of <$> es) Queue.new)
      = (Some <$> (QueueRun.entry_of <$> es)) ++ [None]) ∧
  (∀ ops0 es,
      let q0 := QueueRun.qrun ops0 Queue.new in
      QueueRun.drain (length (Queue.to_list q0) + length es)
        (QueueRun.qrun (QueueRun.enq_of <$> es) q0)
      = Some <$> (Queue.to_list q0 ++ (QueueRun.entry_of <$> es))) ∧
  (∀ ops0 ops,
      let q0 := QueueRun.qrun ops0 Queue.new in
      Queue.is_empty q0 = true →
      size (QueueRun.qrun ops q0)
      = QueueRun.enqueues ops - QueueRun.dequeues ops q0).
Proof.
  split_and!.
  - intros es.
    destruct (enqueue_all_repr es Queue.new [] queue_repr_new)
      as (l' & Hr & Hlen & Hd).
    simpl in Hlen. rewrite <- Hlen, <- Nat.add_1_r.
    rewrite (drain_repr _ _ 1 Hr), Hd. done.
  - intros ops0 es q0.
    destruct (qrun_repr ops0 Queue.new [] queue_repr_new) as [l Hq0].
    fold q0 in Hq0.
    destruct (enqueue_all_repr es q0 l Hq0) as (l' & Hr & Hlen & Hd).
    rewrite (to_list_repr q0 l Hq0).
    rewrite length_fmap, (nodes_at_length _ (head q0)) by apply Hq0.
    rewrite <- Hlen, <- (Nat.add_0_r (length l')).
    rewrite (drain_repr _ _ 0 Hr), Hd. simpl. by rewrite app_nil_r.
  - intros ops0 ops q0 He.
    destruct (qrun_repr ops0 Queue.new [] queue_repr_new) as [l Hq0].
    fold q0 in Hq0.
    pose proof (queue_repr_empty q0 l Hq0 He) as ->.
    rewrite (qrun_size ops q0 [] Hq0). simpl. lia.
Qed.

Lemma queue_fifo_and_size_witness :
  let q0 := QueueRun.qrun [QueueRun.Enq 7 "Ann" "Cough"; QueueRun.Deq]
              Queue.new in
  let ops := [QueueRun.Enq 1 "Bea" "Rash"; QueueRun.Enq 2 "Cy" "Burn";
              QueueRun.Deq; QueueRun.Deq; QueueRun.Deq;
              QueueRun.Enq 3 "Di" "Cut"] in
  Queue.is_empty q0 = true ∧
  size (QueueRun.qrun ops q0)
  = QueueRun.enqueues ops - QueueRun.dequeues ops q0.
Proof.
  intros q0 ops. split; [reflexivity|].
  apply (proj2 (proj2 queue_fifo_and_size)
           [QueueRun.Enq 7 "Ann" "Cough"; QueueRun.Deq] ops).
  reflexivity.
Defined.

(** ** The treatment stack *)

Lemma list_pop_snoc l e : Stack.list_pop (l ++ [e]) = Some (e, l).
Proof.
  induction l as [|x l IH]; [done|].
  change ((x :: l) ++ [e]) with (x :: (l ++ [e])).
  simpl. rewrite IH. by destruct (l ++ [e]) eqn:E; [destruct l|].
Qed.

Lemma set_items_id r : Stack.set_items (_items r) r = r.
Proof. by destruct r. Qed.

Lemma pop_push now d r :
  Stack.pop (Stack.push now d r) = (Some (mkTreatmentEntry now d), r).
Proof.
  unfold Stack.pop, Stack.push. simpl. rewrite list_pop_snoc.
  by destruct r.
Qed.

Lemma pop_snoc r l e :
  _items r = l ++ [e] → Stack.pop r = (Some e, Stack.set_items l r).
Proof. intros H. unfold Stack.pop. by rewrite H, list_pop_snoc. Qed.

Lemma pop_empty r : _items r = [] → Stack.pop r = (None, r).
Proof. intros H. unfold Stack.pop. by rewrite H. Qed.

Lemma push_all_snoc es e r :
  StackRun.push_all (es ++ [e]) r
  = Stack.push (fst e) (snd e) (StackRun.push_all es r).
Proof. unfold StackRun.push_all. by rewrite foldl_app. Qed.

(** C4. [pop] returns what [push] stored, most recent first: after any
    sequence of [push] calls on a stack, as many [pop] calls return the
    pushed entries in exactly the reverse order and leave the stack as it
    was before the pushes; in particular pushing A then B and popping twice
    yields B's entry then A's. *)
Theorem stack_lifo :
  (∀ r es,
      StackRun.pop_n (length es) (StackRun.push_all es r)
      = (Some <$> rev (StackRun.entry_of <$> es), r)) ∧
  (∀ r ta a tb b,
      StackRun.pop_n 2 (Stack.push tb b (Stack.push ta a r))
      = ([Some (mkTreatmentEntry tb b); Some (mkTreatmentEntry ta a)], r)).
Proof.
  split.
  - intros r es. induction es as [|e es IH] using rev_ind; [done|].
    rewrite length_app, Nat.add_1_r, push_all_snoc. cbn [StackRun.pop_n].
    rewrite pop_push, IH, fmap_app, rev_app_distr. by destruct e.
  - intros r ta a tb b. cbn [StackRun.pop_n]. by rewrite !pop_push.
Qed.

(** ** The facade, operation by operation *)

Lemma is_Some_insert (m : gmap string TreatmentStack) k v j :
  is_Some (m !! j) → is_Some (<[k:=v]> m !! j).
Proof.
  intros H. destruct (decide (k = j)) as [->|Hne].
  - rewrite lookup_insert_eq. eauto.
  - by rewrite lookup_insert_ne.
Qed.

Lemma set_queue_id s : HMS.set_queue (patient_queue s) s = s.
Proof. by destruct s. Qed.

Lemma set_records_id s : HMS.set_records (patient_records s) s = s.
Proof. by destruct s. Qed.

Lemma treat_next_empty now s :
  Queue.is_empty (patient_queue s) = true →
  HMS.treat_next_patient now s
  = (Ret None, HMS.set_slot None None None None s).
Proof.
  intros He. unfold HMS.treat_next_patient, Queue.dequeue.
  rewrite He. by rewrite set_queue_id.
Qed.

Lemma treat_next_nonempty now s a l p rec :
  queue_repr (patient_queue s) (a :: l) →
  store (patient_queue s) !! a = Some p →
  patient_records s !! patient_id p = Some rec →
  ∃ q', queue_repr q' l ∧ store q' = store (patient_queue s) ∧
    HMS.treat_next_patient now s
    = (Ret (Some (patient_id p)),
       {| hospital_name := hospital_name s;
          patient_queue := q';
          patient_records :=
            <[patient_id p :=
                Stack.push now
                  (Some (String.append "Initial Triage for "
                           (String.append (condition p) ".")))
                  (Stack.set_status "In Treatment" rec)]>
              (patient_records s);
          specializations := specializations s;
          current_treatment_id := Some (patient_id p);
          current_patient_name := Some (name p);
          current_patient_condition := Some (condition p);
          current_patient_doctor := None |}).
Proof.
  intros Hq Hp Hrec.
  destruct (dequeue_repr_cons _ a l Hq) as (q' & Hd & Hq' & Hst).
  exists q'. split_and!; [done..|].
  unfold HMS.treat_next_patient. rewrite Hd. cbn [HMS.set_queue patient_queue].
  rewrite Hst, Hp. cbn. by rewrite Hrec.
Qed.

Lemma no_current_add now d s :
  truthy (current_treatment_id s) = false →
  HMS.add_treatment_step now d s = (Ret false, s).
Proof. intros H. unfold HMS.add_treatment_step. by rewrite H. Qed.

Lemma no_current_undo s :
  truthy (current_treatment_id s) = false →
  HMS.undo_last_treatment s = (Ret false, s).
Proof. intros H. unfold HMS.undo_last_treatment. by rewrite H. Qed.

Lemma no_current_assign d s :
  truthy (current_treatment_id s) = false →
  HMS.assign_doctor_to_current d s = (Ret false, s).
Proof. intros H. unfold HMS.assign_doctor_to_current. by rewrite H. Qed.

Lemma current_add now d s i r :
  current_treatment_id s = Some i → truthy (Some i) = true →
  patient_records s !! i = Some r →
  HMS.add_treatment_step now d s
  = (Ret true,
     HMS.set_records (<[i := Stack.push now d r]> (patient_records s)) s).
Proof.
  intros Hc Ht Hr. unfold HMS.add_treatment_step. by rewrite Hc, Ht, Hr.
Qed.

Lemma current_undo s i r :
  current_treatment_id s = Some i → truthy (Some i) = true →
  patient_records s !! i = Some r →
  HMS.undo_last_treatment s
  = (Ret (bool_decide (fst (Stack.pop r) ≠ None)),
     HMS.set_records (<[i := snd (Stack.pop r)]> (patient_records s)) s).
Proof.
  intros Hc Ht Hr. unfold HMS.undo_last_treatment. rewrite Hc, Ht, Hr.
  simpl. by destruct (Stack.pop r).
Qed.

Lemma current_assign d s i r :
  current_treatment_id s = Some i → truthy (Some i) = true →
  patient_records s !! i = Some r →
  HMS.assign_doctor_to_current d s
  = (Ret true,
     HMS.set_records
       (<[i := Stack.set_assigned_doctor d r]> (patient_records s)) s).
Proof.
  intros Hc Ht Hr. unfold HMS.assign_doctor_to_current.
  by rewrite Hc, Ht, Hr.
Qed.

Lemma pop_status r : status (snd (Stack.pop r)) = status r.
Proof. unfold Stack.pop. by destruct (Stack.list_pop (_items r)) as [[]|]. Qed.

(** Registration, on a well-formed queue. *)
Lemma register_patient_eq u nm cond s l :
  queue_repr (patient_queue s) l →
  HMS.register_patient u nm cond s
  = (Ret (short_id u),
     HMS.set_records
       (<[short_id u := HMS.new_record (short_id u) cond]>
          (patient_records s))
       (HMS.set_queue (snd (Queue.enqueue u nm cond (patient_queue s))) s)).
Proof.
  intros Hq. unfold HMS.register_patient.
  pose proof (enqueue_repr u nm cond _ l Hq) as [_ Hnew].
  pose proof (enqueue_fst u nm cond (patient_queue s)) as Hfst.
  destruct (Queue.enqueue u nm cond (patient_queue s)) as [a q] eqn:E.
  simpl in Hfst, Hnew. subst a. rewrite Hnew. done.
Qed.

(** ** The invariant of the facade *)

Lemma init_inv `{StrLower} hname u1 u2 : hms_inv (HMS.init hname u1 u2).
Proof.
  unfold HMS.init.
  pose proof (enqueue_repr u1 "Alice Johnson" "Severe fever" Queue.new []
                queue_repr_new) as [H1 N1].
  destruct (Queue.enqueue u1 "Alice Johnson" "Severe fever" Queue.new)
    as [a1 q1] eqn:E1.
  pose proof (enqueue_repr u2 "Bob Davis" "Broken arm" q1 _ H1) as [H2 N2].
  pose proof (enqueue_store_old u2 "Bob Davis" "Broken arm" q1 _ _ N1)
    as (n1 & Hn1 & Hid1 & _).
  pose proof (enqueue_store_length u2 "Bob Davis" "Broken arm" q1) as Hlen2.
  pose proof (enqueue_store_length u1 "Alice Johnson" "Severe fever"
                Queue.new) as Hlen1.
  rewrite E1 in Hlen1.
  destruct (Queue.enqueue u2 "Bob Davis" "Broken arm" q1) as [a2 q2] eqn:E2.
  cbn [snd] in *. cbn [Queue.new store length] in *.
  rewrite Hlen1 in *.
  assert (Hnodes : ∀ a n, store q2 !! a = Some n →
             patient_id n = short_id u1 ∨ patient_id n = short_id u2).
  { intros a n Ha.
    assert (a = 0 ∨ a = 1)%nat as [->| ->].
    { apply lookup_lt_Some in Ha. lia. }
    - left. simpl in Hid1. congruence.
    - right. rewrite N2 in Ha. by injection Ha as <-. }
  split_and!; cbn.
  - exists [0; 1]%nat. split; [done|]. intros a n _ Ha.
    destruct (Hnodes a n Ha) as [-> | ->].
    + apply is_Some_insert. rewrite lookup_insert_eq. eauto.
    + rewrite lookup_insert_eq. eauto.
  - intros a n Ha. destruct (Hnodes a n Ha) as [-> | ->];
      apply short_id_length.
  - done.
Qed.

Lemma inv_insert s k v :
  hms_inv s →
  hms_inv (HMS.set_records (<[k:=v]> (patient_records s)) s).
Proof.
  intros ((l & Hq & Hids) & Hlen & Hcur). split_and!; cbn.
  - exists l. split; [done|]. intros a n Ha Hn.
    apply is_Some_insert. eauto.
  - done.
  - intros i Hi. destruct (Hcur i Hi). split; [done|].
    by apply is_Some_insert.
Qed.

Lemma current_cases s :
  hms_inv s →
  truthy (current_treatment_id s) = false ∨
  ∃ i r, current_treatment_id s = Some i ∧ truthy (Some i) = true ∧
         patient_records s !! i = Some r.
Proof.
  intros (_ & _ & Hcur). destruct (current_treatment_id s) as [i|] eqn:E.
  - right. destruct (Hcur i eq_refl) as [Hlen [r Hr]].
    exists i, r. split_and!; [done| |done]. by apply length8_truthy.
  - by left.
Qed.

Lemma register_inv u nm cond s :
  hms_inv s → hms_inv (snd (HMS.register_patient u nm cond s)).
Proof.
  intros ((l & Hq & Hids) & Hlen & Hcur).
  rewrite (register_patient_eq u nm cond s l Hq). cbn [snd].
  pose proof (enqueue_repr u nm cond _ l Hq) as [Hq' Hnew].
  pose proof (enqueue_store_length u nm cond (patient_queue s)) as Hlen'.
  assert (Hold : ∀ b n, store (snd (Queue.enqueue u nm cond (patient_queue s)))
                          !! b = Some n →
             patient_id n = short_id u ∨
             ∃ n0, store (patient_queue s) !! b = Some n0 ∧
                   patient_id n = patient_id n0).
  { intros b n Hb.
    destruct (decide (b = length (store (patient_queue s)))) as [->|Hne].
    - left. rewrite Hnew in Hb. by injection Hb as <-.
    - right. apply lookup_lt_Some in Hb as Hlt.
      destruct (lookup_lt_is_Some_2 (store (patient_queue s)) b) as [n0 Hn0];
        [lia|].
      destruct (enqueue_store_old u nm cond _ b n0 Hn0) as (n' & Hn' & ? & _).
      exists n0. split; [done|]. congruence. }
  split_and!; cbn.
  - eexists. split; [exact Hq'|]. intros b n Hb Hn.
    destruct (Hold b n Hn) as [-> | (n0 & Hn0 & ->)].
    + rewrite lookup_insert_eq. eauto.
    + apply is_Some_insert.
      apply elem_of_app in Hb as [Hb|Hb%list_elem_of_singleton].
      * eauto.
      * subst b. apply lookup_lt_Some in Hn0. lia.
  - intros b n Hn. destruct (Hold b n Hn) as [-> | (n0 & Hn0 & ->)].
    + apply short_id_length.
    + eauto.
  - intros i Hi. destruct (Hcur i Hi). split; [done|].
    by apply is_Some_insert.
Qed.

Lemma treat_next_inv now s :
  hms_inv s →
  hms_inv (snd (HMS.treat_next_patient now s)) ∧
  ∃ r, fst (HMS.treat_next_patient now s) = Ret r.
Proof.
  intros ((l & Hq & Hids) & Hlen & Hcur).
  destruct l as [|a l].
  - rewrite treat_next_empty.
    2:{ destruct Hq as (Hc & _). simpl in Hc. unfold Queue.is_empty.
        by rewrite Hc. }
    split; [|eauto]. split_and!; cbn; [eauto|done|done].
  - pose proof Hq as ([_ (p & Hp & _)] & _).
    destruct (Hids a p ltac:(left) Hp) as [rec Hrec].
    destruct (treat_next_nonempty now s a l p rec Hq Hp Hrec)
      as (q' & Hq' & Hst & ->).
    split; [|eauto]. split_and!; cbn.
    + exists l. split; [done|]. intros b n Hb Hn. rewrite Hst in Hn.
      apply is_Some_insert. apply (Hids b n); [by right|done].
    + intros b n Hn. rewrite Hst in Hn. eauto.
    + intros i [= <-]. split; [eauto|]. rewrite lookup_insert_eq. eauto.
Qed.

Lemma step_inv o s :
  hms_inv s → hms_inv (HMS.step o s) ∧ HMS.returns o s = true.
Proof.
  intros Hinv. destruct o as [u nm cond|now|now d| |d]; cbn.
  - split; [by apply register_inv|].
    destruct Hinv as ((l & Hq & _) & _).
    by rewrite (register_patient_eq u nm cond s l Hq).
  - destruct (treat_next_inv now s Hinv) as [H' [r ->]]. done.
  - destruct (current_cases s Hinv) as [Hf | (i & r & Hc & Ht & Hr)].
    + by rewrite (no_current_add now d s Hf).
    + rewrite (current_add now d s i r Hc Ht Hr). cbn.
      split; [by apply inv_insert|done].
  - destruct (current_cases s Hinv) as [Hf | (i & r & Hc & Ht & Hr)].
    + by rewrite (no_current_undo s Hf).
    + rewrite (current_undo s i r Hc Ht Hr). cbn.
      split; [by apply inv_insert|done].
  - destruct (current_cases s Hinv) as [Hf | (i & r & Hc & Ht & Hr)].
    + by rewrite (no_current_assign d s Hf).
    + rewrite (current_assign d s i r Hc Ht Hr). cbn.
      split; [by apply inv_insert|done].
Qed.

Lemma run_inv ops s : hms_inv s → hms_inv (HMS.run ops s).
Proof.
  revert s. induction ops as [|o ops IH]; intros s Hinv; [done|].
  apply IH. by apply step_inv.
Qed.

Lemma reachable_inv `{StrLower} s : HMS.reachable s → hms_inv s.
Proof.
  intros (hname & u1 & u2 & ops & ->). apply run_inv, init_inv.
Qed.

Lemma repr_cons_inv q l e es :
  queue_repr q l →
  to_dict <$> nodes_at (store q) l = e :: es →
  ∃ a l' p, l = a :: l' ∧ store q !! a = Some p ∧ to_dict p = e ∧
            to_dict <$> nodes_at (store q) l' = es.
Proof.
  intros (Hc & _) He. destruct l as [|a l]; [done|].
  destruct Hc as [_ (p & Hp & _)].
  rewrite (nodes_at_cons _ _ _ _ Hp) in He. simpl in He.
  injection He as He1 He2. by exists a, l, p.
Qed.

Lemma to_list_elem q l i n c :
  queue_repr q l → (i, n, c) ∈ Queue.to_list q →
  ∃ a p, a ∈ l ∧ store q !! a = Some p ∧ patient_id p = i.
Proof.
  intros Hq Hin. rewrite (to_list_repr q l Hq) in Hin.
  apply list_elem_of_fmap in Hin as (p & Hp & Hin).
  unfold nodes_at in Hin. apply list_elem_of_omap in Hin as (a & Ha & Hl).
  exists a, p. split_and!; [done..|]. unfold to_dict in Hp. congruence.
Qed.

(** C1. In a reachable state whose queue shows P1 then P2 at its front, two
    successive calls of [treat_next_patient] return P1's identifier then
    P2's, and after each call the ledger stored under the returned
    identifier has status "In Treatment" and a history of length at least
    one whose most recent entry is the triage step pushed by that call. *)
Theorem treat_next_twice `{StrLower} s now1 now2 id1 n1 c1 id2 n2 c2 rest :
  HMS.reachable s →
  Queue.to_list (patient_queue s) = (id1, n1, c1) :: (id2, n2, c2) :: rest →
  ∃ s1 s2 r1 r2,
    HMS.treat_next_patient now1 s = (Ret (Some id1), s1) ∧
    patient_records s1 !! id1 = Some r1 ∧
    status r1 = "In Treatment" ∧
    (1 ≤ length (_items r1))%nat ∧
    last (_items r1)
      = Some (mkTreatmentEntry now1
                (Some (String.append "Initial Triage for "
                         (String.append c1 ".")))) ∧
    HMS.treat_next_patient now2 s1 = (Ret (Some id2), s2) ∧
    patient_records s2 !! id2 = Some r2 ∧
    status r2 = "In Treatment" ∧
    (1 ≤ length (_items r2))%nat ∧
    last (_items r2)
      = Some (mkTreatmentEntry now2
                (Some (String.append "Initial Triage for "
                         (String.append c2 ".")))).
Proof.
  intros Hreach Hlist.
  destruct (reachable_inv s Hreach) as ((l & Hq & Hids) & _ & _).
  rewrite (to_list_repr _ l Hq) in Hlist.
  destruct (repr_cons_inv _ _ _ _ Hq Hlist)
    as (a1 & l1 & p1 & -> & Hp1 & Hd1 & Hlist1).
  destruct (Hids a1 p1 ltac:(left) Hp1) as [rec1 Hrec1].
  destruct (treat_next_nonempty now1 s a1 l1 p1 rec1 Hq Hp1 Hrec1)
    as (q1 & Hq1 & Hst1 & Ht1).
  rewrite <- Hst1 in Hlist1.
  destruct (repr_cons_inv _ _ _ _ Hq1 Hlist1)
    as (a2 & l2 & p2 & -> & Hp2 & Hd2 & _).
  assert (Hrec2 : is_Some (patient_records s !! patient_id p2)).
  { apply (Hids a2 p2); [right; left|]. by rewrite <- Hst1. }
  unfold to_dict in Hd1, Hd2.
  injection Hd1 as <- <- <-. injection Hd2 as <- <- <-.
  set (s1 := (HMS.treat_next_patient now1 s).2) in *.
  assert (Hs1 : HMS.treat_next_patient now1 s = (Ret (Some (patient_id p1)), s1))
    by (unfold s1; by rewrite Ht1).
  assert (Hq1' : queue_repr (patient_queue s1) (a2 :: l2))
    by (unfold s1; by rewrite Ht1).
  assert (Hp2' : store (patient_queue s1) !! a2 = Some p2)
    by (unfold s1; by rewrite Ht1).
  assert (Hr1 : patient_records s1 !! patient_id p1
                = Some (Stack.push now1
                          (Some (String.append "Initial Triage for "
                                   (String.append (condition p1) ".")))
                          (Stack.set_status "In Treatment" rec1))).
  { unfold s1. rewrite Ht1. cbn. by rewrite lookup_insert_eq. }
  assert (Hrec2' : is_Some (patient_records s1 !! patient_id p2)).
  { unfold s1. rewrite Ht1. cbn. by apply is_Some_insert. }
  destruct Hrec2' as [rec2 Hrec2'].
  destruct (treat_next_nonempty now2 s1 a2 l2 p2 rec2 Hq1' Hp2' Hrec2')
    as (q2 & _ & _ & Ht2).
  eexists s1, _, _, _. split_and!.
  - exact Hs1.
  - exact Hr1.
  - done.
  - cbn. rewrite length_app. simpl. lia.
  - cbn. by rewrite last_snoc.
  - exact Ht2.
  - cbn. by rewrite lookup_insert_eq.
  - done.
  - cbn. rewrite length_app. simpl. lia.
  - cbn. by rewrite last_snoc.
Qed.

Lemma treat_next_twice_witness :
  let s := @HMS.init ascii_lower "City General Hospital"
             (439041101 * 2 ^ 96)%N (1 * 2 ^ 96)%N in
  @HMS.reachable ascii_lower s ∧
  ∃ s1 s2 r1 r2,
    HMS.treat_next_patient "2024-05-01 09:00:00" s
      = (Ret (Some "1a2b3c4d"), s1) ∧
    patient_records s1 !! "1a2b3c4d" = Some r1 ∧
    status r1 = "In Treatment" ∧
    (1 ≤ length (_items r1))%nat ∧
    last (_items r1)
      = Some (mkTreatmentEntry "2024-05-01 09:00:00"
                (Some "Initial Triage for Severe fever.")) ∧
    HMS.treat_next_patient "2024-05-01 09:30:00" s1
      = (Ret (Some "00000001"), s2) ∧
    patient_records s2 !! "00000001" = Some r2 ∧
    status r2 = "In Treatment" ∧
    (1 ≤ length (_items r2))%nat ∧
    last (_items r2)
      = Some (mkTreatmentEntry "2024-05-01 09:30:00"
                (Some "Initial Triage for Broken arm.")).
Proof.
  intros s.
  assert (Hr : @HMS.reachable ascii_lower s).
  { exists "City General Hospital", (439041101 * 2 ^ 96)%N, (1 * 2 ^ 96)%N, [].
    reflexivity. }
  split; [exact Hr|].
  apply (@treat_next_twice ascii_lower s "2024-05-01 09:00:00"
           "2024-05-01 09:30:00" "1a2b3c4d" "Alice Johnson" "Severe fever"
           "00000001" "Bob Davis" "Broken arm" [] Hr).
  vm_compute. reflexivity.
Defined.

Lemma returns_Ret {A} (x : outcome A) :
  match x with Ret _ => true | Exc _ => false end = true → ∃ r, x = Ret r.
Proof. destruct x; [eauto|done]. Qed.

(** C10. In every reachable state the identifier of every patient in the
    queue and the identifier in the current-treatment slot are keys of
    [patient_records]; hence [treat_next_patient], [add_treatment_step],
    [undo_last_treatment] and [assign_doctor_to_current] return a value in
    such a state: none of them raises, and none of their dictionary
    accesses meets a missing key. *)
Theorem ids_are_record_keys `{StrLower} s :
  HMS.reachable s →
  (∀ i n c, (i, n, c) ∈ Queue.to_list (patient_queue s) →
            i ∈ dom (patient_records s)) ∧
  (∀ i, current_treatment_id s = Some i → i ∈ dom (patient_records s)) ∧
  (∀ now, ∃ r, fst (HMS.treat_next_patient now s) = Ret r) ∧
  (∀ now d, ∃ b, fst (HMS.add_treatment_step now d s) = Ret b) ∧
  (∃ b, fst (HMS.undo_last_treatment s) = Ret b) ∧
  (∀ d, ∃ b, fst (HMS.assign_doctor_to_current d s) = Ret b).
Proof.
  intros Hreach. pose proof (reachable_inv s Hreach) as Hinv.
  pose proof Hinv as ((l & Hq & Hids) & _ & Hcur).
  split_and!.
  - intros i n c Hin.
    destruct (to_list_elem _ l i n c Hq Hin) as (a & p & Ha & Hp & <-).
    apply elem_of_dom. eauto.
  - intros i Hi. apply elem_of_dom. by destruct (Hcur i Hi).
  - intros now. apply returns_Ret.
    apply (step_inv (HMS.TreatNextPatient now) s Hinv).
  - intros now d. apply returns_Ret.
    apply (step_inv (HMS.AddTreatmentStep now d) s Hinv).
  - apply returns_Ret. apply (step_inv HMS.UndoLastTreatment s Hinv).
  - intros d. apply returns_Ret.
    apply (step_inv (HMS.AssignDoctorToCurrent d) s Hinv).
Qed.

Lemma ids_are_record_keys_witness :
  let s := HMS.run
             [HMS.TreatNextPatient "2024-05-01 09:00:00";
              HMS.RegisterPatient (7 * 2 ^ 96) "Carol" "Migraine"]
             (@HMS.init ascii_lower "City General Hospital"
                (439041101 * 2 ^ 96)%N (1 * 2 ^ 96)%N) in
  @HMS.reachable ascii_lower s ∧
  (∀ i n c, (i, n, c) ∈ Queue.to_list (patient_queue s) →
            i ∈ dom (patient_records s)) ∧
  (∀ i, current_treatment_id s = Some i → i ∈ dom (patient_records s)) ∧
  (∀ now, ∃ r, fst (HMS.treat_next_patient now s) = Ret r) ∧
  (∀ now d, ∃ b, fst (HMS.add_treatment_step now d s) = Ret b) ∧
  (∃ b, fst (HMS.undo_last_treatment s) = Ret b) ∧
  (∀ d, ∃ b, fst (HMS.assign_doctor_to_current d s) = Ret b).
Proof.
  intros s.
  assert (Hr : @HMS.reachable ascii_lower s).
  { eexists _, _, _, _. reflexivity. }
  split; [exact Hr|]. exact (@ids_are_record_keys ascii_lower s Hr).
Defined.

(** C9. When the queue is empty, [treat_next_patient] returns the empty
    signal and changes nothing but the current-treatment slot, which it
    clears: the queue, the patient ledgers and the specialization tree are
    the same objects with the same contents. *)
Theorem treat_next_on_empty_queue now s :
  Queue.is_empty (patient_queue s) = true →
  HMS.treat_next_patient now s
    = (Ret None, HMS.set_slot None None None None s) ∧
  let s' := snd (HMS.treat_next_patient now s) in
  current_treatment_id s' = None ∧
  current_patient_name s' = None ∧
  current_patient_condition s' = None ∧
  current_patient_doctor s' = None ∧
  patient_queue s' = patient_queue s ∧
  patient_records s' = patient_records s ∧
  specializations s' = specializations s ∧
  hospital_name s' = hospital_name s.
Proof.
  intros He. rewrite (treat_next_empty now s He). by split_and!.
Qed.

Lemma treat_next_on_empty_queue_witness :
  let s := HMS.run
             [HMS.TreatNextPatient "2024-05-01 09:00:00";
              HMS.TreatNextPatient "2024-05-01 09:30:00"]
             (@HMS.init ascii_lower "City General Hospital"
                (439041101 * 2 ^ 96)%N (1 * 2 ^ 96)%N) in
  Queue.is_empty (patient_queue s) = true ∧
  current_treatment_id s = Some "00000001" ∧
  HMS.treat_next_patient "2024-05-01 10:00:00" s
    = (Ret None, HMS.set_slot None None None None s).
Proof.
  intros s. split; [reflexivity|]. split; [reflexivity|].
  apply (treat_next_on_empty_queue "2024-05-01 10:00:00" s). reflexivity.
Defined.

(** ** The current-treatment slot *)

(** Rewriting the current ledger without touching its status keeps the
    slot consistent. *)
Lemma slot_ok_update s i r r' :
  current_treatment_id s = Some i →
  patient_records s !! i = Some r →
  status r' = status r →
  slot_ok s →
  slot_ok (HMS.set_records (<[i := r']> (patient_records s)) s).
Proof.
  intros Hc Hr Hst [(Hn & _)|(j & n & c & r0 & Hj & Hn & Hco & Hr0 & Hs)].
  - congruence.
  - right. exists i, n, c, r'. cbn. split_and!; [done..| |].
    + by rewrite lookup_insert_eq.
    + assert (j = i) as -> by congruence. congruence.
Qed.

Lemma step_slot_ok o s :
  hms_inv s → slot_ok s →
  match o with
  | HMS.RegisterPatient u _ _ => patient_records s !! short_id u = None
  | _ => True
  end →
  slot_ok (HMS.step o s).
Proof.
  intros Hinv Hslot Hfresh. destruct o as [u nm cond|now|now d| |d]; cbn.
  - destruct Hinv as ((l & Hq & _) & _).
    rewrite (register_patient_eq u nm cond s l Hq). cbn [snd].
    destruct Hslot as [?|(i & n & c & r & Hi & Hn & Hc & Hr & Hs)];
      [by left|].
    right. exists i, n, c, r. cbn. split_and!; [done..| |done].
    rewrite lookup_insert_ne; [done|]. intros E. congruence.
  - destruct Hinv as ((l & Hq & Hids) & _). destruct l as [|a l].
    + rewrite treat_next_empty.
      2:{ destruct Hq as (Hc & _). simpl in Hc. unfold Queue.is_empty.
          by rewrite Hc. }
      by left.
    + pose proof Hq as ([_ (p & Hp & _)] & _).
      destruct (Hids a p ltac:(left) Hp) as [rec Hrec].
      destruct (treat_next_nonempty now s a l p rec Hq Hp Hrec)
        as (q' & _ & _ & ->).
      right. eexists _, _, _, _. cbn. split_and!; [done..| |].
      * by rewrite lookup_insert_eq.
      * done.
  - destruct (current_cases s Hinv) as [Hf | (i & r & Hc & Ht & Hr)].
    + by rewrite (no_current_add now d s Hf).
    + rewrite (current_add now d s i r Hc Ht Hr). cbn [snd].
      by apply (slot_ok_update s i r).
  - destruct (current_cases s Hinv) as [Hf | (i & r & Hc & Ht & Hr)].
    + by rewrite (no_current_undo s Hf).
    + rewrite (current_undo s i r Hc Ht Hr). cbn [snd].
      apply (slot_ok_update s i r); [done..|apply pop_status|done].
  - destruct (current_cases s Hinv) as [Hf | (i & r & Hc & Ht & Hr)].
    + by rewrite (no_current_assign d s Hf).
    + rewrite (current_assign d s i r Hc Ht Hr). cbn [snd].
      by apply (slot_ok_update s i r).
Qed.





(** ** Undo, at the facade and at the request handler *)

(** C5. In a reachable state, undoing has three outcomes that the request
    handler tells apart.  With no current patient it answers with the
    error "No patient currently selected for treatment." (code 400) and
    the state is unchanged.  With a current patient whose history is
    empty, the pop is a no-op that returns the empty signal, the handler
    answers "Treatment history is empty. Nothing to undo." and the state,
    every ledger included, is unchanged.  With a current patient whose
    history is [l ++ [e]], exactly the most recent step [e] is removed
    from that ledger, no other ledger changes, and the handler answers
    "Last treatment step successfully undone.". *)
Theorem undo_three_outcomes `{StrLower} s :
  HMS.reachable s →
  (current_treatment_id s = None →
   HMS.undo_last_treatment s = (Ret false, s) ∧
   App.undo_treatment s
   = (App.mkResponse "error"
        (App.Text "No patient currently selected for treatment.") 400, s)) ∧
  (∀ i, current_treatment_id s = Some i →
        ∃ r, patient_records s !! i = Some r ∧
          (_items r = [] →
           Stack.pop r = (None, r) ∧
           HMS.undo_last_treatment s = (Ret false, s) ∧
           App.undo_treatment s
           = (App.mkResponse "info"
                (App.Text "Treatment history is empty. Nothing to undo.")
                200, s)) ∧
          (∀ l e, _items r = l ++ [e] →
           let s' :=
             HMS.set_records
               (<[i := Stack.set_items l r]> (patient_records s)) s in
           HMS.undo_last_treatment s = (Ret true, s') ∧
           App.undo_treatment s
           = (App.mkResponse "info"
                (App.Text "Last treatment step successfully undone.")
                200, s') ∧
           (_items <$> patient_records s' !! i) = Some l ∧
           ∀ j, j ≠ i → patient_records s' !! j = patient_records s !! j)).
Proof.
  intros Hreach. pose proof (reachable_inv s Hreach) as Hinv. split.
  - intros Hnone.
    assert (Hf : truthy (current_treatment_id s) = false) by by rewrite Hnone.
    split; [by apply no_current_undo|].
    unfold App.undo_treatment. by rewrite Hf.
  - intros i Hi.
    destruct (current_cases s Hinv) as [Hf | (i' & r & Hc & Ht & Hr)].
    { destruct Hinv as (_ & _ & Hcur). destruct (Hcur i Hi) as [Hlen _].
      rewrite Hi, (length8_truthy i Hlen) in Hf. discriminate. }
    assert (i' = i) as -> by congruence.
    exists r. split; [done|]. split.
    + intros He. pose proof (pop_empty r He) as Hpop.
      assert (Hu : HMS.undo_last_treatment s = (Ret false, s)).
      { rewrite (current_undo s i r Hc Ht Hr), Hpop. cbn.
        by rewrite (insert_id _ _ _ Hr), set_records_id. }
      split_and!; [done..|].
      unfold App.undo_treatment. by rewrite Hc, Ht, Hu.
    + intros l e He s'. pose proof (pop_snoc r l e He) as Hpop.
      assert (Hu : HMS.undo_last_treatment s = (Ret true, s')).
      { by rewrite (current_undo s i r Hc Ht Hr), Hpop. }
      split_and!; [done| | |].
      * unfold App.undo_treatment. by rewrite Hc, Ht, Hu.
      * unfold s'. cbn. by rewrite lookup_insert_eq.
      * intros j Hj. unfold s'. cbn. by rewrite lookup_insert_ne.
Qed.

Lemma undo_three_outcomes_witness :
  let s0 := @HMS.init ascii_lower "City General Hospital"
              (439041101 * 2 ^ 96)%N (1 * 2 ^ 96)%N in
  let s1 := HMS.run [HMS.TreatNextPatient "2024-05-01 09:00:00"] s0 in
  let s2 := HMS.run [HMS.TreatNextPatient "2024-05-01 09:00:00";
                      HMS.UndoLastTreatment] s0 in
  @HMS.reachable ascii_lower s0 ∧
  App.undo_treatment s0
  = (App.mkResponse "error"
       (App.Text "No patient currently selected for treatment.") 400, s0) ∧
  fst (App.undo_treatment s1)
  = App.mkResponse "info"
      (App.Text "Last treatment step successfully undone.") 200 ∧
  App.undo_treatment s2
  = (App.mkResponse "info"
       (App.Text "Treatment history is empty. Nothing to undo.") 200, s2).
Proof.
  intros s0 s1 s2.
  assert (H0 : @HMS.reachable ascii_lower s0).
  { exists "City General Hospital", (439041101 * 2 ^ 96)%N, (1 * 2 ^ 96)%N, [].
    reflexivity. }
  assert (H1 : @HMS.reachable ascii_lower s1).
  { exists "City General Hospital", (439041101 * 2 ^ 96)%N, (1 * 2 ^ 96)%N,
      [HMS.TreatNextPatient "2024-05-01 09:00:00"].
    reflexivity. }
  assert (H2 : @HMS.reachable ascii_lower s2).
  { exists "City General Hospital", (439041101 * 2 ^ 96)%N, (1 * 2 ^ 96)%N,
      [HMS.TreatNextPatient "2024-05-01 09:00:00"; HMS.UndoLastTreatment].
    reflexivity. }
  split; [exact H0|]. split_and!.
  - apply (proj1 (@undo_three_outcomes ascii_lower s0 H0)). reflexivity.
  - destruct (proj2 (@undo_three_outcomes ascii_lower s1 H1) "1a2b3c4d"
                eq_refl) as (r & Hr & _ & Hcons).
    assert (Hitems : _items r
                     = [] ++ [mkTreatmentEntry "2024-05-01 09:00:00"
                                (Some "Initial Triage for Severe fever.")]).
    { assert (Hl : (_items <$> patient_records s1 !! "1a2b3c4d")
                   = Some [mkTreatmentEntry "2024-05-01 09:00:00"
                             (Some "Initial Triage for Severe fever.")])
        by (vm_compute; reflexivity).
      rewrite Hr in Hl. by injection Hl as ->. }
    destruct (Hcons _ _ Hitems) as (_ & -> & _). reflexivity.
  - destruct (proj2 (@undo_three_outcomes ascii_lower s2 H2) "1a2b3c4d"
                eq_refl) as (r & Hr & Hnil & _).
    apply Hnil.
    assert (Hl : (_items <$> patient_records s2 !! "1a2b3c4d") = Some [])
      by (vm_compute; reflexivity).
    rewrite Hr in Hl. by injection Hl as ->.
Defined.

(** ** The patient record *)

(** C6, as amended. For every identifier that is a key of
    [patient_records], [get_patient_record] returns a record with one
    visit whose registration time is the timestamp of the first, oldest,
    entry of the treatment history when the history is not empty, and the
    text "N/A" when it is empty. *)
Theorem registration_time_inferred s pid r :
  patient_records s !! pid = Some r →
  ∃ pr v,
    HMS.get_patient_record pid s = Some pr ∧
    HMS.full_visits pr = [v] ∧
    HMS.treatment_history v = _items r ∧
    (∀ e l, _items r = e :: l → HMS.registration_time v = timestamp e) ∧
    (_items r = [] → HMS.registration_time v = "N/A").
Proof.
  intros Hr. unfold HMS.get_patient_record. rewrite Hr.
  eexists _, _. split_and!; [done..| |]; cbn; unfold Stack.get_history.
  - by intros e l ->.
  - by intros ->.
Qed.

Lemma registration_time_inferred_witness :
  let s := HMS.run [HMS.TreatNextPatient "2024-05-01 09:00:00";
                    HMS.AddTreatmentStep "2024-05-01 09:05:00"
                      (Some "Administered medication")]
             (@HMS.init ascii_lower "City General Hospital"
                (439041101 * 2 ^ 96)%N (1 * 2 ^ 96)%N) in
  ∃ r pr v,
    patient_records s !! "1a2b3c4d" = Some r ∧
    length (_items r) = 2%nat ∧
    HMS.get_patient_record "1a2b3c4d" s = Some pr ∧
    HMS.full_visits pr = [v] ∧
    HMS.registration_time v = "2024-05-01 09:00:00".
Proof.
  intros s.
  destruct (patient_records s !! "1a2b3c4d") as [r|] eqn:Hr;
    [|vm_compute in Hr; discriminate].
  destruct (registration_time_inferred s "1a2b3c4d" r Hr)
    as (pr & v & Hpr & Hv & _ & Hcons & _).
  assert (Hitems : _items r
                   = [mkTreatmentEntry "2024-05-01 09:00:00"
                        (Some "Initial Triage for Severe fever.");
                      mkTreatmentEntry "2024-05-01 09:05:00"
                        (Some "Administered medication")]).
  { vm_compute in Hr. by injection Hr as <-. }
  exists r, pr, v. split_and!; [done| by rewrite Hitems |done..|].
  by rewrite (Hcons _ _ Hitems).
Defined.

(** C6, as first stated, fails on the empty history: the text reported is
    "N/A", not "unknown".  Bob has just been pre-loaded and has no
    history. *)
Lemma registration_time_counterexample :
  let s := @HMS.init ascii_lower "City General Hospital"
             (439041101 * 2 ^ 96)%N (1 * 2 ^ 96)%N in
  (_items <$> patient_records s !! "00000001") = Some [] ∧
  (HMS.registration_time
     <$> (HMS.get_patient_record "00000001" s
            ≫= λ pr, List.head (HMS.full_visits pr)))
  = Some "N/A" ∧
  (HMS.registration_time
     <$> (HMS.get_patient_record "00000001" s
            ≫= λ pr, List.head (HMS.full_visits pr)))
  ≠ Some "unknown".
Proof.
  intros s. split_and!; [vm_compute; reflexivity..|].
  vm_compute. discriminate.
Qed.

(** ** Doctor assignment at the request handler *)




(** ** The specialization tree *)

Lemma SpecializationNode_ind (P : SpecializationNode → Prop) :
  (∀ n ds cs, Forall P cs → P (mkSpecializationNode n ds cs)) →
  ∀ t, P t.
Proof.
  intros Hnode. fix IH 1. intros [n ds cs]. apply Hnode.
  induction cs as [|c cs IHcs]; constructor; [apply IH|exact IHcs].
Qed.

Lemma _find_node_unfold `{StrLower} t nm :
  Tree._find_node t nm
  = if String.eqb (lower (spec_name t)) (lower nm) then Some []
    else find_each nm (children t) 0.
Proof.
  destruct t as [n ds cs]. simpl.
  destruct (String.eqb (lower n) (lower nm)); [done|].
  generalize 0%nat. induction cs as [|c cs IH]; intros i; [done|].
  simpl. destruct (Tree._find_node c nm); [done|]. apply IH.
Qed.

Lemma find_each_Some `{StrLower} nm cs i q :
  find_each nm cs i = Some q →
  ∃ j c p, q = (i + j)%nat :: p ∧ cs !! j = Some c ∧
           Tree._find_node c nm = Some p.
Proof.
  revert i. induction cs as [|c cs IH]; intros i Hq; [done|].
  simpl in Hq. destruct (Tree._find_node c nm) as [p|] eqn:E.
  - injection Hq as <-. exists 0%nat, c, p. by rewrite Nat.add_0_r.
  - destruct (IH _ Hq) as (j & c' & p & -> & Hj & Hp).
    exists (S j), c', p. split_and!; [f_equal; lia|done..].
Qed.

Lemma find_each_None `{StrLower} nm cs i :
  find_each nm cs i = None ↔ Forall (λ c, Tree._find_node c nm = None) cs.
Proof.
  revert i. induction cs as [|c cs IH]; intros i; simpl.
  - split; [constructor|done].
  - destruct (Tree._find_node c nm) eqn:E.
    + split; [done|]. intros Hall. apply Forall_cons in Hall as [? _].
      congruence.
    + rewrite IH. split; [by constructor|]. by intros [_ ?]%Forall_cons.
Qed.

(** What [_find_node] returns is a node of the tree whose lowered name
    is the lowered name asked for. *)
Lemma _find_node_sound `{StrLower} t nm p :
  Tree._find_node t nm = Some p →
  ∃ node, Tree.subtree p t = Some node ∧
          lower (spec_name node) = lower nm.
Proof.
  revert p. induction t as [n ds cs IH] using SpecializationNode_ind.
  intros p. rewrite _find_node_unfold. cbn [spec_name children].
  destruct (String.eqb (lower n) (lower nm)) eqn:E.
  - intros [= <-]. apply String.eqb_eq in E. eexists. by split.
  - intros Hq. destruct (find_each_Some _ _ _ _ Hq) as (j & c & p' & -> & Hj & Hp).
    rewrite Forall_lookup in IH.
    destruct (IH j c Hj p' Hp) as (node & Hnode & Hname).
    exists node. split; [|done]. simpl. by rewrite Hj.
Qed.

(** [_find_node] fails exactly when no node of the tree has the lowered
    name asked for. *)
Lemma _find_node_None `{StrLower} t nm :
  Tree._find_node t nm = None ↔
  Forall (λ x, lower x ≠ lower nm) (preorder t).
Proof.
  induction t as [n ds cs IH] using SpecializationNode_ind.
  rewrite _find_node_unfold. cbn [spec_name children preorder].
  rewrite Forall_cons, Forall_concat, Forall_fmap.
  destruct (String.eqb (lower n) (lower nm)) eqn:E.
  - apply String.eqb_eq in E. split; [done|]. by intros [? _].
  - apply String.eqb_neq in E. rewrite find_each_None.
    rewrite Forall_forall in IH. split.
    + intros Hall. split; [done|]. apply Forall_forall. intros c Hc.
      rewrite Forall_forall in Hall. apply (IH c Hc), Hall, Hc.
    + intros [_ Hall]. apply Forall_forall. intros c Hc.
      rewrite Forall_forall in Hall. apply (IH c Hc), Hall, Hc.
Qed.

Lemma preorder_child cs i c x :
  cs !! i = Some c → x ∈ preorder c → x ∈ concat (preorder <$> cs).
Proof.
  revert i. induction cs as [|c0 cs IH]; intros i Hi Hx; [done|].
  simpl. apply elem_of_app. destruct i as [|i].
  - left. by injection Hi as ->.
  - right. eauto.
Qed.

Lemma subtree_preorder p t node :
  Tree.subtree p t = Some node → spec_name node ∈ preorder t.
Proof.
  revert t. induction p as [|i p IH]; intros [n ds cs]; simpl.
  - intros [= <-]. apply list_elem_of_here.
  - destruct (cs !! i) as [c|] eqn:Hi; [|done]. intros Hsub.
    apply list_elem_of_further. eapply preorder_child; eauto.
Qed.

Lemma subtree_update p f t node :
  Tree.subtree p t = Some node →
  Tree.subtree p (Tree.update_at p f t) = Some (f node).
Proof.
  revert t. induction p as [|i p IH]; intros t; simpl.
  - by intros [= ->].
  - destruct (children t !! i) as [c|] eqn:Hi; [|done]. intros Hsub.
    rewrite list_lookup_alter_eq, Hi. simpl. by apply IH.
Qed.

Lemma concat_alter (g : SpecializationNode → SpecializationNode)
    cs i c extra :
  cs !! i = Some c →
  preorder (g c) ≡ₚ extra ++ preorder c →
  concat (preorder <$> alter g i cs) ≡ₚ extra ++ concat (preorder <$> cs).
Proof.
  revert i. induction cs as [|c0 cs IH]; intros i Hi Hp; [done|].
  destruct i as [|i]; simpl.
  - injection Hi as ->. by rewrite Hp, app_assoc.
  - rewrite (IH i Hi Hp). apply Permutation_app_swap_app.
Qed.

(** Appending a child under the node at a path adds the nodes of the
    child to the tree and neither removes nor renames any other node. *)
Lemma preorder_update p c t node :
  Tree.subtree p t = Some node →
  preorder (Tree.update_at p (Tree.append_child c) t)
  ≡ₚ preorder c ++ preorder t.
Proof.
  revert t. induction p as [|i p IH]; intros [n ds cs]; simpl.
  - intros _. rewrite fmap_app, concat_app. simpl. rewrite app_nil_r.
    apply (Permutation_app_comm
             (n :: concat (preorder <$> cs)) (preorder c)).
  - destruct (cs !! i) as [ci|] eqn:Hi; [|done]. intros Hsub.
    rewrite (concat_alter _ _ i ci (preorder c) Hi (IH ci Hsub)).
    apply (Permutation_middle (preorder c)).
Qed.

(** C8. [add_specialization parent_name child_name] succeeds exactly when
    the depth-first search from the root finds a node whose lower-cased
    name is the lower-cased [parent_name], which is the case exactly when
    the tree has such a node.  It then appends a new node named
    [child_name], without doctors or children, after the children of the
    node found, no other node is removed or renamed, and looking up
    [child_name] afterwards succeeds.  When no node matches it returns
    failure and the tree is the one it was given. *)
Theorem add_specialization_outcomes `{StrLower} root parent_name child_name :
  (fst (Tree.add_specialization parent_name child_name root) = true
   ↔ is_Some (Tree._find_node root parent_name)) ∧
  (is_Some (Tree._find_node root parent_name)
   ↔ ∃ x, x ∈ preorder root ∧ lower x = lower parent_name) ∧
  (∀ p, Tree._find_node root parent_name = Some p →
        ∃ node root',
          Tree.subtree p root = Some node ∧
          lower (spec_name node) = lower parent_name ∧
          Tree.add_specialization parent_name child_name root
            = (true, root') ∧
          Tree.subtree p root'
            = Some (mkSpecializationNode (spec_name node) (doctors node)
                      (children node
                         ++ [mkSpecializationNode child_name [] []])) ∧
          preorder root' ≡ₚ child_name :: preorder root ∧
          is_Some (Tree._find_node root' child_name)) ∧
  (Tree._find_node root parent_name = None →
   Tree.add_specialization parent_name child_name root = (false, root)).
Proof.
  split_and!.
  - unfold Tree.add_specialization.
    destruct (Tree._find_node root parent_name); simpl.
    + split; eauto.
    + split; [done|]. by intros [? ?].
  - split.
    + intros [p Hp]. destruct (_find_node_sound _ _ _ Hp) as (node & Hn & Hl).
      exists (spec_name node). split; [|done]. by eapply subtree_preorder.
    + intros (x & Hx & Hl).
      destruct (Tree._find_node root parent_name) eqn:E; [eauto|].
      apply _find_node_None in E. rewrite Forall_forall in E.
      by destruct (E x Hx).
  - intros p Hp. destruct (_find_node_sound _ _ _ Hp) as (node & Hn & Hl).
    exists node, (Tree.update_at p (Tree.append_child
                                      (Tree.new_node child_name)) root).
    pose proof (preorder_update p (Tree.new_node child_name) root node Hn)
      as Hperm.
    split_and!; [done|done| | |done|].
    + unfold Tree.add_specialization. by rewrite Hp.
    + by rewrite (subtree_update _ _ _ _ Hn).
    + destruct (Tree._find_node _ child_name) eqn:E; [eauto|].
      apply _find_node_None in E. rewrite Hperm in E.
      apply Forall_cons in E as [E _]. done.
  - intros Hnone. unfold Tree.add_specialization. by rewrite Hnone.
Qed.

Lemma add_specialization_outcomes_witness :
  let root := @Tree.new ascii_lower "City General Hospital" in
  @Tree._find_node ascii_lower root "CARDIOLOGY" = Some [1; 0]%nat ∧
  (∃ root',
      @Tree.add_specialization ascii_lower "CARDIOLOGY"
        "Interventional Cardiology" root = (true, root') ∧
      is_Some (@Tree._find_node ascii_lower root'
                 "Interventional Cardiology")) ∧
  @Tree._find_node ascii_lower root "NoSuchDept" = None ∧
  @Tree.add_specialization ascii_lower "NoSuchDept" "X" root = (false, root).
Proof.
  intros root.
  assert (Hf : @Tree._find_node ascii_lower root "CARDIOLOGY"
               = Some [1; 0]%nat) by (vm_compute; reflexivity).
  assert (Hn : @Tree._find_node ascii_lower root "NoSuchDept" = None)
    by (vm_compute; reflexivity).
  split; [exact Hf|]. split_and!.
  - destruct (proj1 (proj2 (proj2
                (@add_specialization_outcomes ascii_lower root "CARDIOLOGY"
                   "Interventional Cardiology"))) _ Hf)
      as (node & root' & _ & _ & Hadd & _ & _ & Hfind).
    exists root'. by split.
  - exact Hn.
  - exact (proj2 (proj2 (proj2
             (@add_specialization_outcomes ascii_lower root "NoSuchDept"
                "X"))) Hn).
Defined.

(** * Further properties of the code *)

(** ** The queue, seen through [to_list] and [size] *)

Lemma to_list_enqueue u nm cond q l :
  queue_repr q l →
  Queue.to_list (snd (Queue.enqueue u nm cond q))
  = Queue.to_list q ++ [(short_id u, nm, cond)].
Proof.
  intros Hq. pose proof (enqueue_repr u nm cond q l Hq) as [Hq' Hnew].
  rewrite (to_list_repr _ _ Hq'), (to_list_repr _ _ Hq).
  rewrite nodes_at_app, fmap_app. destruct Hq as (Hc & _).
  rewrite (nodes_at_enqueue u nm cond q _ l Hc).
  by rewrite (nodes_at_cons _ _ _ _ Hnew).
Qed.

Lemma to_list_length q l :
  queue_repr q l → length (Queue.to_list q) = length l.
Proof.
  intros Hq. rewrite (to_list_repr q l Hq), length_fmap.
  apply (nodes_at_length _ (head q)), Hq.
Qed.

(** X1. In every state of a queue reached from a new one by enqueues and
    dequeues, [size] is the number of entries [to_list] shows, [head] is
    [None] exactly when [tail] is, and [is_empty] holds exactly when
    [size] is zero. *)
Theorem queue_size_counts_entries ops :
  let q := QueueRun.qrun ops Queue.new in
  size q = Z.of_nat (length (Queue.to_list q)) ∧
  (head q = None ↔ tail q = None) ∧
  (Queue.is_empty q = true ↔ size q = 0).
Proof.
  intros q.
  destruct (qrun_repr ops Queue.new [] queue_repr_new) as [l Hq].
  fold q in Hq. rewrite (to_list_length q l Hq).
  destruct Hq as (Hc & Ht & Hs & _). unfold Queue.is_empty.
  destruct l as [|a l]; simpl in Hc.
  - rewrite Hc, Ht, Hs. simpl. by split_and!.
  - destruct Hc as [Hh _]. rewrite Hh, Ht, Hs.
    destruct (last (a :: l)) eqn:El; [|by apply last_None in El].
    split_and!; [done|split; done|]. split; [done|]. simpl length. lia.
Qed.

(** X2. On such a queue state, [enqueue] adds its entry at the end of what
    [to_list] shows and changes nothing before it; [dequeue] returns the
    first entry shown and leaves the others, in their order; and on a
    queue that shows nothing [dequeue] returns [None] and leaves the queue
    object as it is. *)
Theorem queue_operations_on_to_list ops :
  let q := QueueRun.qrun ops Queue.new in
  (∀ u nm cond,
      Queue.to_list (snd (Queue.enqueue u nm cond q))
      = Queue.to_list q ++ [(short_id u, nm, cond)]) ∧
  (∀ e es,
      Queue.to_list q = e :: es →
      QueueRun.dequeued q = Some e ∧
      Queue.to_list (snd (Queue.dequeue q)) = es) ∧
  (Queue.to_list q = [] → Queue.dequeue q = (Ret None, q)).
Proof.
  intros q.
  destruct (qrun_repr ops Queue.new [] queue_repr_new) as [l Hq].
  fold q in Hq. split_and!.
  - intros u nm cond. by apply (to_list_enqueue u nm cond q l).
  - intros e es He. rewrite (to_list_repr q l Hq) in He.
    destruct (repr_cons_inv _ _ _ _ Hq He) as (a & l' & p & -> & Hp & Hd & Hes).
    destruct (dequeue_repr_cons q a l' Hq) as (q' & Hdq & Hq' & Hst).
    unfold QueueRun.dequeued. rewrite Hdq. cbn [fst snd]. rewrite Hp.
    split; [by rewrite <- Hd|].
    by rewrite (to_list_repr q' l' Hq'), Hst.
  - intros He. apply dequeue_repr_nil.
    pose proof (to_list_length q l Hq) as Hlen. rewrite He in Hlen.
    destruct l; [done|discriminate].
Qed.

Lemma queue_operations_on_to_list_witness :
  let q := QueueRun.qrun [QueueRun.Enq 7 "Ann" "Cough";
                          QueueRun.Enq (5 * 2 ^ 96) "Bea" "Rash"]
             Queue.new in
  Queue.to_list q = [("00000000", "Ann", "Cough"); ("00000005", "Bea", "Rash")] ∧
  QueueRun.dequeued q = Some ("00000000", "Ann", "Cough") ∧
  Queue.to_list (snd (Queue.dequeue q)) = [("00000005", "Bea", "Rash")].
Proof.
  intros q.
  assert (Hl : Queue.to_list q
               = [("00000000", "Ann", "Cough"); ("00000005", "Bea", "Rash")])
    by reflexivity.
  split; [exact Hl|].
  exact (proj1 (proj2 (queue_operations_on_to_list
                         [QueueRun.Enq 7 "Ann" "Cough";
                          QueueRun.Enq (5 * 2 ^ 96) "Bea" "Rash"])) _ _ Hl).
Defined.

(** ** The treatment stack *)

Lemma list_pop_last l :
  Stack.list_pop l
  = match last l with Some e => Some (e, removelast l) | None => None end.
Proof.
  destruct l as [|x l] using rev_ind; [done|].
  by rewrite list_pop_snoc, last_snoc, removelast_last.
Qed.

Lemma pop_fields r :
  fst (Stack.pop r) = last (_items r) ∧
  _items (snd (Stack.pop r)) = removelast (_items r) ∧
  status (snd (Stack.pop r)) = status r ∧
  assigned_doctor (snd (Stack.pop r)) = assigned_doctor r ∧
  initial_condition (snd (Stack.pop r)) = initial_condition r ∧
  stack_patient_id (snd (Stack.pop r)) = stack_patient_id r.
Proof.
  unfold Stack.pop. rewrite list_pop_last.
  destruct (last (_items r)) eqn:E; [done|].
  apply last_None in E. rewrite E. done.
Qed.

(** X3. [pop] returns the entry pushed last, or [None] on an empty
    history; it removes that entry and no other, and leaves the status,
    the doctor, the condition and the identifier of the ledger alone. *)
Theorem pop_removes_last r :
  fst (Stack.pop r) = last (_items r) ∧
  _items (snd (Stack.pop r)) = removelast (_items r) ∧
  status (snd (Stack.pop r)) = status r ∧
  assigned_doctor (snd (Stack.pop r)) = assigned_doctor r ∧
  initial_condition (snd (Stack.pop r)) = initial_condition r ∧
  stack_patient_id (snd (Stack.pop r)) = stack_patient_id r.
Proof. exact (pop_fields r). Qed.

(** ** The facade: what the status shows *)

Lemma step_doctor_none o s :
  current_patient_doctor s = None →
  current_patient_doctor (HMS.step o s) = None.
Proof.
  intros Hn. destruct o as [u nm cond|now|now d| |d]; cbn.
  - unfold HMS.register_patient.
    destruct (Queue.enqueue u nm cond (patient_queue s)) as [a q].
    by destruct (store q !! a).
  - unfold HMS.treat_next_patient.
    destruct (Queue.dequeue (patient_queue s)) as [[[a|]|e] q]; cbn;
      try done.
    destruct (store q !! a) as [p|]; cbn; [|done].
    by destruct (patient_records s !! patient_id p).
  - unfold HMS.add_treatment_step.
    destruct (negb (truthy (current_treatment_id s))); [done|].
    destruct (current_treatment_id s) as [i|]; [|done].
    by destruct (patient_records s !! i).
  - unfold HMS.undo_last_treatment.
    destruct (negb (truthy (current_treatment_id s))); [done|].
    destruct (current_treatment_id s) as [i|]; [|done].
    destruct (patient_records s !! i) as [r|]; [|done].
    by destruct (Stack.pop r).
  - unfold HMS.assign_doctor_to_current.
    destruct (negb (truthy (current_treatment_id s))); [done|].
    destruct (current_treatment_id s) as [i|]; [|done].
    by destruct (patient_records s !! i).
Qed.

Lemma run_doctor_none ops s :
  current_patient_doctor s = None →
  current_patient_doctor (HMS.run ops s) = None.
Proof.
  revert s. induction ops as [|o ops IH]; intros s Hn; [done|].
  apply IH. by apply step_doctor_none.
Qed.

(** X4. In every reachable state the status handed to the client is
    coherent: the queue size is the number of queue entries listed; with
    no current patient there is no doctor and no history in it; with a
    current patient the doctor and the history are those of that
    patient's ledger.  The facade's own [current_patient_doctor] field is
    [None] throughout. *)
Theorem status_data_coherent `{StrLower} s :
  HMS.reachable s →
  HMS.queue_size (HMS.get_status_data s)
    = Z.of_nat (length (HMS.queue_data (HMS.get_status_data s))) ∧
  (current_treatment_id s = None →
   HMS.status_assigned_doctor (HMS.get_status_data s) = None ∧
   HMS.history_data (HMS.get_status_data s) = []) ∧
  (∀ i, current_treatment_id s = Some i →
        ∃ r, patient_records s !! i = Some r ∧
             HMS.status_assigned_doctor (HMS.get_status_data s)
               = assigned_doctor r ∧
             HMS.history_data (HMS.get_status_data s) = _items r) ∧
  current_patient_doctor s = None.
Proof.
  intros Hreach. pose proof (reachable_inv s Hreach) as Hinv.
  pose proof Hinv as ((l & Hq & _) & _ & Hcur).
  unfold HMS.get_status_data. cbn. split_and!.
  - rewrite (to_list_length _ l Hq). apply Hq.
  - by intros ->.
  - intros i Hi. destruct (Hcur i Hi) as [_ [r Hr]]. rewrite Hi, Hr. eauto.
  - destruct Hreach as (hname & u1 & u2 & ops & ->).
    by apply run_doctor_none.
Qed.

Lemma status_data_coherent_witness :
  let s := HMS.run
             [HMS.TreatNextPatient "2024-05-01 09:00:00";
              HMS.AssignDoctorToCurrent (Some "Dr. Jose Garcia")]
             (@HMS.init ascii_lower "City General Hospital"
                (439041101 * 2 ^ 96)%N (1 * 2 ^ 96)%N) in
  @HMS.reachable ascii_lower s ∧
  HMS.queue_size (HMS.get_status_data s) = 1 ∧
  HMS.queue_size (HMS.get_status_data s)
    = Z.of_nat (length (HMS.queue_data (HMS.get_status_data s))).
Proof.
  intros s.
  assert (Hr : @HMS.reachable ascii_lower s).
  { exists "City General Hospital", (439041101 * 2 ^ 96)%N, (1 * 2 ^ 96)%N,
      [HMS.TreatNextPatient "2024-05-01 09:00:00";
       HMS.AssignDoctorToCurrent (Some "Dr. Jose Garcia")].
    reflexivity. }
  split; [exact Hr|]. split; [reflexivity|].
  exact (proj1 (@status_data_coherent ascii_lower s Hr)).
Defined.

(** ** The facade: registration and the patient record *)

Lemma find_app_None {A} (f : A → bool) l1 l2 :
  List.find f l1 = None → List.find f (l1 ++ l2) = List.find f l2.
Proof.
  induction l1 as [|x l1 IH]; [done|]. simpl.
  destruct (f x); [done|]. exact IH.
Qed.

Lemma find_none_forall {A} (f : A → bool) l :
  (∀ x, x ∈ l → f x = false) → List.find f l = None.
Proof.
  induction l as [|x l IH]; intros Hall; [done|]. simpl.
  rewrite (Hall x) by apply list_elem_of_here.
  apply IH. intros y Hy. apply Hall. by apply list_elem_of_further.
Qed.

Lemma name_by_id_repr s l pid :
  queue_repr (patient_queue s) l →
  HMS.get_patient_name_by_id pid s
  = match List.find (fun n => String.eqb (patient_id n) pid)
            (nodes_at (store (patient_queue s)) l) with
    | Some n => name n
    | None => String.append "Patient " pid
    end.
Proof.
  intros Hq. unfold HMS.get_patient_name_by_id. by rewrite (walk_repr _ l Hq).
Qed.

(** X5. Registering a patient in a reachable state, with an identifier that
    is not yet a key of [patient_records]: the call returns the
    identifier; the record then retrieved for it shows the name and the
    condition given, status "Waiting", no doctor, an empty history and the
    registration time "N/A"; the status shows one more queue entry, the
    new one, placed last, and is otherwise what it was; no other ledger
    and nothing of the specialization tree changes. *)
Theorem register_patient_effects `{StrLower} s u nm cond :
  HMS.reachable s →
  patient_records s !! short_id u = None →
  let s' := snd (HMS.register_patient u nm cond s) in
  fst (HMS.register_patient u nm cond s) = Ret (short_id u) ∧
  HMS.get_patient_record (short_id u) s'
  = Some (HMS.mkPatientRecord (short_id u) nm
            [HMS.mkVisit "N/A" cond "Waiting" None []]) ∧
  HMS.get_status_data s'
  = HMS.mkStatusData
      (HMS.queue_size (HMS.get_status_data s) + 1)
      (HMS.queue_data (HMS.get_status_data s) ++ [(short_id u, nm, cond)])
      (HMS.current_patient_id (HMS.get_status_data s))
      (HMS.status_patient_name (HMS.get_status_data s))
      (HMS.status_patient_condition (HMS.get_status_data s))
      (HMS.status_assigned_doctor (HMS.get_status_data s))
      (HMS.history_data (HMS.get_status_data s)) ∧
  (∀ j, j ≠ short_id u → patient_records s' !! j = patient_records s !! j) ∧
  specializations s' = specializations s.
Proof.
  intros Hreach Hfresh s'.
  pose proof (reachable_inv s Hreach) as ((l & Hq & Hids) & _ & Hcur).
  unfold s'. rewrite (register_patient_eq u nm cond s l Hq). cbn [fst snd].
  pose proof (enqueue_repr u nm cond _ l Hq) as [Hq' Hnew].
  split_and!.
  - done.
  - unfold HMS.get_patient_record. cbn [patient_records HMS.set_records].
    rewrite lookup_insert_eq.
    erewrite (name_by_id_repr _ _ (short_id u)); [|exact Hq'].
    cbn [patient_queue HMS.set_records HMS.set_queue].
    rewrite nodes_at_app, (nodes_at_cons _ _ _ _ Hnew).
    rewrite find_app_None.
    + cbn. by rewrite String.eqb_refl.
    + apply find_none_forall. intros n' Hn'.
      unfold nodes_at in Hn'. apply list_elem_of_omap in Hn' as (b & Hb & Hn').
      pose proof Hq as (Hc & _).
      pose proof (chain_lt _ _ _ b Hc Hb) as Hlt.
      destruct (lookup_lt_is_Some_2 (store (patient_queue s)) b Hlt)
        as [n0 Hn0].
      destruct (enqueue_store_old u nm cond _ b n0 Hn0)
        as (n1 & Hn1 & Hid & _).
      assert (n1 = n') as -> by congruence.
      apply String.eqb_neq. rewrite Hid. intros E.
      destruct (Hids b n0 Hb Hn0) as [r Hr]. congruence.
  - unfold HMS.get_status_data.
    cbn [patient_queue patient_records current_treatment_id
         current_patient_name current_patient_condition
         HMS.set_records HMS.set_queue HMS.queue_size HMS.queue_data
         HMS.current_patient_id HMS.status_patient_name
         HMS.status_patient_condition HMS.status_assigned_doctor
         HMS.history_data].
    rewrite (to_list_enqueue u nm cond _ l Hq).
    assert (Hsz : size (snd (Queue.enqueue u nm cond (patient_queue s)))
                  = size (patient_queue s) + 1).
    { unfold Queue.enqueue. by destruct (Queue.is_empty (patient_queue s)). }
    rewrite Hsz.
    destruct (current_treatment_id s) as [i|] eqn:Hi; [|done].
    destruct (Hcur i eq_refl) as [_ [r Hr]].
    rewrite lookup_insert_ne by congruence. done.
  - intros j Hj. cbn. by rewrite lookup_insert_ne.
  - done.
Qed.

Lemma register_patient_effects_witness :
  let s := @HMS.init ascii_lower "City General Hospital"
             (439041101 * 2 ^ 96)%N (1 * 2 ^ 96)%N in
  let s' := snd (HMS.register_patient (7 * 2 ^ 96) "Carol" "Migraine" s) in
  @HMS.reachable ascii_lower s ∧
  patient_records s !! short_id (7 * 2 ^ 96) = None ∧
  HMS.get_patient_record "00000007" s'
  = Some (HMS.mkPatientRecord "00000007" "Carol"
            [HMS.mkVisit "N/A" "Migraine" "Waiting" None []]).
Proof.
  intros s s'.
  assert (Hr : @HMS.reachable ascii_lower s).
  { exists "City General Hospital", (439041101 * 2 ^ 96)%N, (1 * 2 ^ 96)%N, [].
    reflexivity. }
  assert (Hf : patient_records s !! short_id (7 * 2 ^ 96) = None)
    by (vm_compute; reflexivity).
  split; [exact Hr|]. split; [exact Hf|].
  exact (proj1 (proj2 (@register_patient_effects ascii_lower s (7 * 2 ^ 96)
                         "Carol" "Migraine" Hr Hf))).
Defined.

(** X6. The name of a patient is kept only by the queue.  In a reachable
    state whose queue shows a patient first and shows that identifier
    nowhere else, the record retrieved for the patient carries the name;
    once [treat_next_patient] has taken the patient out of the queue the
    record carries the placeholder "Patient <id>" instead. *)
Theorem name_lost_after_dequeue `{StrLower} s now id nm cond rest :
  HMS.reachable s →
  Queue.to_list (patient_queue s) = (id, nm, cond) :: rest →
  (∀ x, x ∈ rest → fst (fst x) ≠ id) →
  (HMS.record_name <$> HMS.get_patient_record id s) = Some nm ∧
  (HMS.record_name
     <$> HMS.get_patient_record id (snd (HMS.treat_next_patient now s)))
  = Some (String.append "Patient " id).
Proof.
  intros Hreach Hlist Hrest.
  pose proof (reachable_inv s Hreach) as ((l & Hq & Hids) & _ & _).
  rewrite (to_list_repr _ l Hq) in Hlist.
  destruct (repr_cons_inv _ _ _ _ Hq Hlist) as (a & l' & p & -> & Hp & Hd & Hl').
  unfold to_dict in Hd. injection Hd as <- <- <-.
  destruct (Hids a p ltac:(left) Hp) as [rec Hrec].
  split.
  - unfold HMS.get_patient_record. rewrite Hrec. cbn.
    rewrite (name_by_id_repr s _ _ Hq), (nodes_at_cons _ _ _ _ Hp). cbn.
    by rewrite String.eqb_refl.
  - destruct (treat_next_nonempty now s a l' p rec Hq Hp Hrec)
      as (q' & Hq' & Hst & ->).
    unfold HMS.get_patient_record. cbn [snd patient_records].
    rewrite lookup_insert_eq. cbn.
    erewrite (name_by_id_repr _ l'); [|exact Hq']. cbn [patient_queue].
    rewrite Hst, find_none_forall; [done|].
    intros n' Hn'. apply String.eqb_neq. intros E.
    apply (Hrest (to_dict n')); [|done].
    rewrite <- Hl'. by apply list_elem_of_fmap_2.
Qed.

Lemma name_lost_after_dequeue_witness :
  let s := @HMS.init ascii_lower "City General Hospital"
             (439041101 * 2 ^ 96)%N (1 * 2 ^ 96)%N in
  (HMS.record_name <$> HMS.get_patient_record "1a2b3c4d" s)
  = Some "Alice Johnson" ∧
  (HMS.record_name
     <$> HMS.get_patient_record "1a2b3c4d"
           (snd (HMS.treat_next_patient "2024-05-01 09:00:00" s)))
  = Some "Patient 1a2b3c4d".
Proof.
  intros s.
  assert (Hr : @HMS.reachable ascii_lower s).
  { exists "City General Hospital", (439041101 * 2 ^ 96)%N, (1 * 2 ^ 96)%N, [].
    reflexivity. }
  apply (@name_lost_after_dequeue ascii_lower s "2024-05-01 09:00:00"
           "1a2b3c4d" "Alice Johnson" "Severe fever"
           [("00000001", "Bob Davis", "Broken arm")] Hr).
  - reflexivity.
  - intros x ->%list_elem_of_singleton. discriminate.
Defined.

(** ** Ledgers along a run *)

Lemma step_records_grow o s pid :
  is_Some (patient_records s !! pid) →
  is_Some (patient_records (HMS.step o s) !! pid).
Proof.
  intros Hs. destruct o as [u nm cond|now|now d| |d]; cbn.
  - unfold HMS.register_patient.
    destruct (Queue.enqueue u nm cond (patient_queue s)) as [a q].
    destruct (store q !! a); cbn; [by apply is_Some_insert|done].
  - unfold HMS.treat_next_patient.
    destruct (Queue.dequeue (patient_queue s)) as [[[a|]|e] q]; cbn;
      try done.
    destruct (store q !! a) as [p|]; cbn; [|done].
    destruct (patient_records s !! patient_id p); cbn;
      [by apply is_Some_insert|done].
  - unfold HMS.add_treatment_step.
    destruct (negb (truthy (current_treatment_id s))); [done|].
    destruct (current_treatment_id s) as [i|]; [|done].
    destruct (patient_records s !! i); cbn; [by apply is_Some_insert|done].
  - unfold HMS.undo_last_treatment.
    destruct (negb (truthy (current_treatment_id s))); [done|].
    destruct (current_treatment_id s) as [i|]; [|done].
    destruct (patient_records s !! i) as [r|]; [|done].
    destruct (Stack.pop r). cbn. by apply is_Some_insert.
  - unfold HMS.assign_doctor_to_current.
    destruct (negb (truthy (current_treatment_id s))); [done|].
    destruct (current_treatment_id s) as [i|]; [|done].
    destruct (patient_records s !! i); cbn; [by apply is_Some_insert|done].
Qed.

(** X7. No operation of the facade removes a ledger: from any state
    whatever, an identifier for which a record is found is still found
    after any sequence of operations, and the record handler never
    answers 404 for it. *)
Theorem ledgers_never_removed ops s pid :
  is_Some (HMS.get_patient_record pid s) →
  is_Some (HMS.get_patient_record pid (HMS.run ops s)) ∧
  ∃ record, App.get_patient_record pid (HMS.run ops s) = inl record.
Proof.
  intros Hs.
  assert (Hin : is_Some (patient_records s !! pid)).
  { unfold HMS.get_patient_record in Hs.
    destruct (patient_records s !! pid); [eauto|by destruct Hs]. }
  assert (Hrun : is_Some (patient_records (HMS.run ops s) !! pid)).
  { clear Hs. revert s Hin. induction ops as [|o ops IH]; intros s Hin;
      [done|].
    apply IH. by apply step_records_grow. }
  unfold App.get_patient_record, HMS.get_patient_record.
  destruct Hrun as [r ->]. eauto.
Qed.

Lemma ledgers_never_removed_witness :
  let s := @HMS.init ascii_lower "City General Hospital"
             (439041101 * 2 ^ 96)%N (1 * 2 ^ 96)%N in
  let ops := [HMS.TreatNextPatient "2024-05-01 09:00:00";
              HMS.TreatNextPatient "2024-05-01 09:30:00";
              HMS.RegisterPatient (7 * 2 ^ 96) "Carol" "Migraine"] in
  is_Some (HMS.get_patient_record "1a2b3c4d" s) ∧
  is_Some (HMS.get_patient_record "1a2b3c4d" (HMS.run ops s)).
Proof.
  intros s ops.
  assert (H0 : is_Some (HMS.get_patient_record "1a2b3c4d" s))
    by (vm_compute; eauto).
  split; [exact H0|].
  exact (proj1 (ledgers_never_removed ops s "1a2b3c4d" H0)).
Defined.

Lemma step_ledgers_ok o s :
  (∀ i r, patient_records s !! i = Some r → ledger_ok i r) →
  ∀ i r, patient_records (HMS.step o s) !! i = Some r → ledger_ok i r.
Proof.
  intros Hall.
  assert (Hins : ∀ k v, ledger_ok k v →
            ∀ i r, <[k:=v]> (patient_records s) !! i = Some r →
                   ledger_ok i r).
  { intros k v Hv i r. destruct (decide (k = i)) as [->|Hne].
    - rewrite lookup_insert_eq. by intros [= <-].
    - rewrite lookup_insert_ne by done. apply Hall. }
  destruct o as [u nm cond|now|now d| |d]; cbn.
  - unfold HMS.register_patient.
    destruct (Queue.enqueue u nm cond (patient_queue s)) as [a q].
    destruct (store q !! a); cbn; [|done].
    apply Hins. split; [done|by left].
  - unfold HMS.treat_next_patient.
    destruct (Queue.dequeue (patient_queue s)) as [[[a|]|e] q]; cbn;
      try done.
    destruct (store q !! a) as [p|]; cbn; [|done].
    destruct (patient_records s !! patient_id p) as [r0|] eqn:E; cbn;
      [|done].
    apply Hins. destruct (Hall _ _ E) as [Hid _]. split; [done|by right].
  - unfold HMS.add_treatment_step.
    destruct (negb (truthy (current_treatment_id s))); [done|].
    destruct (current_treatment_id s) as [i|]; [|done].
    destruct (patient_records s !! i) as [r0|] eqn:E; cbn; [|done].
    apply Hins. exact (Hall _ _ E).
  - unfold HMS.undo_last_treatment.
    destruct (negb (truthy (current_treatment_id s))); [done|].
    destruct (current_treatment_id s) as [i|]; [|done].
    destruct (patient_records s !! i) as [r0|] eqn:E; [|done].
    pose proof (pop_fields r0) as (_ & _ & Hst & _ & _ & Hid).
    destruct (Stack.pop r0) as [e r1]. cbn in *.
    apply Hins. destruct (Hall _ _ E) as [Hid0 Hst0].
    split; [congruence|]. by rewrite Hst.
  - unfold HMS.assign_doctor_to_current.
    destruct (negb (truthy (current_treatment_id s))); [done|].
    destruct (current_treatment_id s) as [i|]; [|done].
    destruct (patient_records s !! i) as [r0|] eqn:E; cbn; [|done].
    apply Hins. exact (Hall _ _ E).
Qed.

(** X8. In every reachable state every ledger carries, as its
    [patient_id], the key under which it is stored, and its status is
    "Waiting" or "In Treatment": no operation writes any other status. *)
Theorem ledgers_well_formed `{StrLower} hname uuid1 uuid2 ops i r :
  patient_records (HMS.run ops (HMS.init hname uuid1 uuid2)) !! i = Some r →
  stack_patient_id r = Some i ∧
  (status r = "Waiting" ∨ status r = "In Treatment").
Proof.
  revert i r. change (∀ i r, patient_records
                               (HMS.run ops (HMS.init hname uuid1 uuid2)) !! i
                             = Some r → ledger_ok i r).
  assert (H0 : ∀ i r, patient_records (HMS.init hname uuid1 uuid2) !! i
                      = Some r → ledger_ok i r).
  { intros i r. unfold HMS.init.
    destruct (Queue.enqueue uuid1 _ _ _) as [a1 q1].
    destruct (Queue.enqueue uuid2 _ _ _) as [a2 q2]. cbn.
    destruct (decide (short_id uuid2 = i)) as [<-|Hne2].
    - rewrite lookup_insert_eq. intros [= <-]. split; [done|by left].
    - rewrite lookup_insert_ne by done.
      destruct (decide (short_id uuid1 = i)) as [<-|Hne1].
      + rewrite lookup_insert_eq. intros [= <-]. split; [done|by left].
      + rewrite lookup_insert_ne by done. by rewrite lookup_empty. }
  revert H0. generalize (HMS.init hname uuid1 uuid2).
  induction ops as [|o ops IH]; intros s Hs; [done|].
  apply IH. by apply step_ledgers_ok.
Qed.

Lemma ledgers_well_formed_witness :
  ∃ r,
    patient_records
      (HMS.run [HMS.TreatNextPatient "2024-05-01 09:00:00"]
         (@HMS.init ascii_lower "City General Hospital"
            (439041101 * 2 ^ 96)%N (1 * 2 ^ 96)%N)) !! "1a2b3c4d" = Some r ∧
    stack_patient_id r = Some "1a2b3c4d" ∧
    (status r = "Waiting" ∨ status r = "In Treatment").
Proof.
  destruct (patient_records
              (HMS.run [HMS.TreatNextPatient "2024-05-01 09:00:00"]
                 (@HMS.init ascii_lower "City General Hospital"
                    (439041101 * 2 ^ 96)%N (1 * 2 ^ 96)%N)) !! "1a2b3c4d")
    as [r|] eqn:Hr; [|vm_compute in Hr; discriminate].
  exists r. split; [done|].
  exact (@ledgers_well_formed ascii_lower "City General Hospital"
           (439041101 * 2 ^ 96)%N (1 * 2 ^ 96)%N
           [HMS.TreatNextPatient "2024-05-01 09:00:00"] "1a2b3c4d" r Hr).
Defined.

Lemma step_ledger_kept o s i r :
  match o with
  | HMS.RegisterPatient u _ _ => patient_records s !! short_id u = None
  | _ => True
  end →
  patient_records s !! i = Some r →
  ∃ r', patient_records (HMS.step o s) !! i = Some r' ∧
        initial_condition r' = initial_condition r ∧
        stack_patient_id r' = stack_patient_id r ∧
        (status r = "In Treatment" → status r' = "In Treatment").
Proof.
  intros Hfresh Hr.
  assert (Hsame : ∃ r', patient_records s !! i = Some r' ∧
            initial_condition r' = initial_condition r ∧
            stack_patient_id r' = stack_patient_id r ∧
            (status r = "In Treatment" → status r' = "In Treatment"))
    by (exists r; done).
  assert (Hins : ∀ k r0 v, patient_records s !! k = Some r0 →
            initial_condition v = initial_condition r0 →
            stack_patient_id v = stack_patient_id r0 →
            (status r0 = "In Treatment" → status v = "In Treatment") →
            ∃ r', <[k:=v]> (patient_records s) !! i = Some r' ∧
                  initial_condition r' = initial_condition r ∧
                  stack_patient_id r' = stack_patient_id r ∧
                  (status r = "In Treatment" → status r' = "In Treatment")).
  { intros k r0 v Hk Hc Hid Hst. destruct (decide (k = i)) as [->|Hne].
    - rewrite lookup_insert_eq. exists v.
      assert (r0 = r) as -> by congruence. done.
    - rewrite lookup_insert_ne by done. exact Hsame. }
  destruct o as [u nm cond|now|now d| |d]; cbn.
  - unfold HMS.register_patient.
    destruct (Queue.enqueue u nm cond (patient_queue s)) as [a q] eqn:E.
    pose proof (enqueue_fst u nm cond (patient_queue s)) as Ha.
    rewrite E in Ha. cbn in Ha.
    destruct (store q !! a) as [p|] eqn:Hp; cbn; [|done].
    assert (Hid : patient_id p = short_id u).
    { assert (Hq : q = snd (Queue.enqueue u nm cond (patient_queue s)))
        by by rewrite E.
      subst a.
      destruct (decide (patient_id p = short_id u)) as [?|Hne]; [done|].
      exfalso. revert Hp. rewrite Hq. unfold Queue.enqueue.
      destruct (Queue.is_empty (patient_queue s)); cbn.
      - rewrite lookup_app_r by lia. rewrite Nat.sub_diag. cbn.
        by intros [= <-].
      - destruct (tail (patient_queue s)) as [t|]; cbn.
        + destruct (decide (t = length (store (patient_queue s))))
            as [->|Hne'].
          * rewrite list_lookup_alter_eq, lookup_app_r by lia.
            rewrite Nat.sub_diag. cbn. by intros [= <-].
          * rewrite list_lookup_alter_ne by done.
            rewrite lookup_app_r by lia. rewrite Nat.sub_diag. cbn.
            by intros [= <-].
        + rewrite lookup_app_r by lia. rewrite Nat.sub_diag. cbn.
          by intros [= <-]. }
    rewrite Hid. rewrite lookup_insert_ne; [done|]. congruence.
  - unfold HMS.treat_next_patient.
    destruct (Queue.dequeue (patient_queue s)) as [[[a|]|e] q]; cbn;
      try done.
    destruct (store q !! a) as [p|]; cbn; [|done].
    destruct (patient_records s !! patient_id p) as [r0|] eqn:E; cbn;
      [|done].
    by apply (Hins _ r0).
  - unfold HMS.add_treatment_step.
    destruct (negb (truthy (current_treatment_id s))); [done|].
    destruct (current_treatment_id s) as [j|]; [|done].
    destruct (patient_records s !! j) as [r0|] eqn:E; cbn; [|done].
    by apply (Hins _ r0).
  - unfold HMS.undo_last_treatment.
    destruct (negb (truthy (current_treatment_id s))); [done|].
    destruct (current_treatment_id s) as [j|]; [|done].
    destruct (patient_records s !! j) as [r0|] eqn:E; [|done].
    pose proof (pop_fields r0) as (_ & _ & Hst & _ & Hc & Hid).
    destruct (Stack.pop r0) as [e r1]. cbn in *.
    apply (Hins _ r0); [done..|]. by rewrite Hst.
  - unfold HMS.assign_doctor_to_current.
    destruct (negb (truthy (current_treatment_id s))); [done|].
    destruct (current_treatment_id s) as [j|]; [|done].
    destruct (patient_records s !! j) as [r0|] eqn:E; cbn; [|done].
    by apply (Hins _ r0).
Qed.

(** X9. Along any sequence of operations in which every identifier drawn
    by a registration is new, from any state whatever, a ledger keeps its
    identifier and its initial condition, and once its status is
    "In Treatment" it stays so: there is no way back to "Waiting" and no
    discharge. *)
Theorem ledger_fields_kept ops s i r :
  HMS.fresh_ids ops s →
  patient_records s !! i = Some r →
  ∃ r', patient_records (HMS.run ops s) !! i = Some r' ∧
        initial_condition r' = initial_condition r ∧
        stack_patient_id r' = stack_patient_id r ∧
        (status r = "In Treatment" → status r' = "In Treatment").
Proof.
  revert s r. induction ops as [|o ops IH]; intros s r Hfresh Hr.
  - exists r. done.
  - destruct Hfresh as [Ho Hfresh].
    destruct (step_ledger_kept o s i r Ho Hr) as (r1 & Hr1 & Hc1 & Hid1 & Hst1).
    destruct (IH _ r1 Hfresh Hr1) as (r' & Hr' & Hc & Hid & Hst).
    exists r'. split_and!; [done|congruence|congruence|tauto].
Qed.

Lemma ledger_fields_kept_witness :
  let s := HMS.run [HMS.TreatNextPatient "2024-05-01 09:00:00"]
             (@HMS.init ascii_lower "City General Hospital"
                (439041101 * 2 ^ 96)%N (1 * 2 ^ 96)%N) in
  let ops := [HMS.RegisterPatient (7 * 2 ^ 96) "Carol" "Migraine";
              HMS.TreatNextPatient "2024-05-01 09:30:00";
              HMS.UndoLastTreatment] in
  ∃ r', patient_records (HMS.run ops s) !! "1a2b3c4d" = Some r' ∧
        initial_condition r' = "Severe fever" ∧
        status r' = "In Treatment".
Proof.
  intros s ops.
  assert (Hf : HMS.fresh_ids ops s) by (vm_compute; repeat split).
  destruct (patient_records s !! "1a2b3c4d") as [r|] eqn:Hr;
    [|vm_compute in Hr; discriminate].
  assert (Hc : initial_condition r = "Severe fever" ∧ status r = "In Treatment").
  { vm_compute in Hr. injection Hr as <-. done. }
  destruct (ledger_fields_kept ops s "1a2b3c4d" r Hf Hr)
    as (r' & Hr' & Hc' & _ & Hst').
  exists r'. destruct Hc as [Hc1 Hc2]. split_and!; [done|congruence|tauto].
Defined.

Lemma waiting_insert (m : gmap string TreatmentStack) k v :
  waiting_untouched v →
  (∀ i r, m !! i = Some r → waiting_untouched r) →
  ∀ i r, <[k:=v]> m !! i = Some r → waiting_untouched r.
Proof.
  intros Hv Hall i r. destruct (decide (k = i)) as [->|Hne].
  - rewrite lookup_insert_eq. by intros [= <-].
  - rewrite lookup_insert_ne by done. apply Hall.
Qed.

Lemma in_treatment_not_waiting r :
  status r = "In Treatment" → waiting_untouched r.
Proof. intros Hs Hw. rewrite Hs in Hw. discriminate. Qed.

Lemma slot_current_status s i r :
  slot_ok s → current_treatment_id s = Some i →
  patient_records s !! i = Some r → status r = "In Treatment".
Proof.
  intros [[Hn _]|(j & _ & _ & r0 & Hj & _ & _ & Hr0 & Hs)] Hi Hr;
    congruence.
Qed.

Lemma step_waiting o s :
  hms_inv s → slot_ok s →
  match o with
  | HMS.RegisterPatient u _ _ => patient_records s !! short_id u = None
  | _ => True
  end →
  (∀ i r, patient_records s !! i = Some r → waiting_untouched r) →
  ∀ i r, patient_records (HMS.step o s) !! i = Some r → waiting_untouched r.
Proof.
  intros Hinv Hslot Hfresh Hall.
  destruct o as [u nm cond|now|now d| |d]; cbn.
  - destruct Hinv as ((l & Hq & _) & _).
    rewrite (register_patient_eq u nm cond s l Hq). cbn.
    by apply waiting_insert.
  - destruct Hinv as ((l & Hq & Hids) & _). destruct l as [|a l].
    + rewrite treat_next_empty; [done|].
      destruct Hq as (Hc & _). simpl in Hc. unfold Queue.is_empty.
      by rewrite Hc.
    + pose proof Hq as ([_ (p & Hp & _)] & _).
      destruct (Hids a p ltac:(left) Hp) as [rec Hrec].
      destruct (treat_next_nonempty now s a l p rec Hq Hp Hrec)
        as (q' & _ & _ & ->).
      cbn. apply waiting_insert; [|done]. by apply in_treatment_not_waiting.
  - destruct (current_cases s Hinv) as [Hf | (i & r & Hc & Ht & Hr)].
    + by rewrite (no_current_add now d s Hf).
    + rewrite (current_add now d s i r Hc Ht Hr). cbn.
      apply waiting_insert; [|done]. apply in_treatment_not_waiting.
      cbn. by apply (slot_current_status s i).
  - destruct (current_cases s Hinv) as [Hf | (i & r & Hc & Ht & Hr)].
    + by rewrite (no_current_undo s Hf).
    + rewrite (current_undo s i r Hc Ht Hr). cbn.
      apply waiting_insert; [|done]. apply in_treatment_not_waiting.
      rewrite pop_status. by apply (slot_current_status s i).
  - destruct (current_cases s Hinv) as [Hf | (i & r & Hc & Ht & Hr)].
    + by rewrite (no_current_assign d s Hf).
    + rewrite (current_assign d s i r Hc Ht Hr). cbn.
      apply waiting_insert; [|done]. apply in_treatment_not_waiting.
      cbn. by apply (slot_current_status s i).
Qed.

Lemma run_waiting ops s :
  hms_inv s → slot_ok s → HMS.fresh_ids ops s →
  (∀ i r, patient_records s !! i = Some r → waiting_untouched r) →
  ∀ i r, patient_records (HMS.run ops s) !! i = Some r → waiting_untouched r.
Proof.
  revert s. induction ops as [|o ops IH]; intros s Hinv Hslot Hfresh Hall;
    [done|].
  destruct Hfresh as [Ho Hfresh].
  apply IH; [by apply step_inv|by apply step_slot_ok|done|].
  by apply step_waiting.
Qed.

(** X10. Treatment is recorded only for patients whose treatment has
    started: in every state reached from construction by operations
    whose drawn identifiers are new, a ledger with status "Waiting" has
    an empty history and no doctor. *)
Theorem waiting_ledgers_untouched `{StrLower} hname uuid1 uuid2 ops i r :
  HMS.fresh_ids ops (HMS.init hname uuid1 uuid2) →
  patient_records (HMS.run ops (HMS.init hname uuid1 uuid2)) !! i = Some r →
  status r = "Waiting" →
  _items r = [] ∧ assigned_doctor r = None.
Proof.
  intros Hfresh Hr. revert i r Hr.
  apply run_waiting; [apply init_inv|by left|done|].
  intros i r. unfold HMS.init.
  destruct (Queue.enqueue uuid1 _ _ _) as [a1 q1].
  destruct (Queue.enqueue uuid2 _ _ _) as [a2 q2]. cbn.
  apply waiting_insert; [done|]. apply waiting_insert; [done|].
  intros j r0. by rewrite lookup_empty.
Qed.

Lemma waiting_ledgers_untouched_witness :
  let ops := [HMS.TreatNextPatient "2024-05-01 09:00:00";
              HMS.AddTreatmentStep "2024-05-01 09:05:00"
                (Some "Administered medication");
              HMS.AssignDoctorToCurrent (Some "Dr. Jose Garcia")] in
  let s := HMS.run ops (@HMS.init ascii_lower "City General Hospital"
                          (439041101 * 2 ^ 96)%N (1 * 2 ^ 96)%N) in
  ∃ r, patient_records s !! "00000001" = Some r ∧
       status r = "Waiting" ∧ _items r = [] ∧ assigned_doctor r = None.
Proof.
  intros ops s.
  assert (Hf : HMS.fresh_ids ops
                 (@HMS.init ascii_lower "City General Hospital"
                    (439041101 * 2 ^ 96)%N (1 * 2 ^ 96)%N))
    by (vm_compute; repeat split).
  destruct (patient_records s !! "00000001") as [r|] eqn:Hr;
    [|vm_compute in Hr; discriminate].
  assert (Hw : status r = "Waiting").
  { vm_compute in Hr. by injection Hr as <-. }
  exists r. split; [done|]. split; [exact Hw|].
  exact (@waiting_ledgers_untouched ascii_lower "City General Hospital"
           (439041101 * 2 ^ 96)%N (1 * 2 ^ 96)%N ops "00000001" r Hf Hr Hw).
Defined.

(** ** The facade: steps and doctors of the current patient *)

(** X11. Undo is the inverse of adding a step: in a reachable state with a
    current patient, [add_treatment_step] returns [True], and
    [undo_last_treatment] called next returns [True] and gives back
    exactly the state before the step was added. *)
Theorem add_then_undo `{StrLower} s now d i :
  HMS.reachable s →
  current_treatment_id s = Some i →
  fst (HMS.add_treatment_step now d s) = Ret true ∧
  HMS.undo_last_treatment (snd (HMS.add_treatment_step now d s))
  = (Ret true, s).
Proof.
  intros Hreach Hi. pose proof (reachable_inv s Hreach) as Hinv.
  destruct (current_cases s Hinv) as [Hf | (i' & r & Hc & Ht & Hr)].
  { destruct Hinv as (_ & _ & Hcur). destruct (Hcur i Hi) as [Hlen _].
    rewrite Hi, (length8_truthy i Hlen) in Hf. discriminate. }
  rewrite (current_add now d s i' r Hc Ht Hr). cbn [fst snd].
  split; [done|].
  rewrite (current_undo _ i' (Stack.push now d r)); [|done|done|].
  2:{ cbn. by rewrite lookup_insert_eq. }
  rewrite pop_push. cbn.
  rewrite insert_insert_eq, (insert_id _ _ _ Hr). by destruct s.
Qed.

Lemma add_then_undo_witness :
  let s := HMS.run [HMS.TreatNextPatient "2024-05-01 09:00:00"]
             (@HMS.init ascii_lower "City General Hospital"
                (439041101 * 2 ^ 96)%N (1 * 2 ^ 96)%N) in
  HMS.undo_last_treatment
    (snd (HMS.add_treatment_step "2024-05-01 09:05:00"
            (Some "Administered medication") s))
  = (Ret true, s).
Proof.
  intros s.
  assert (Hr : @HMS.reachable ascii_lower s).
  { exists "City General Hospital", (439041101 * 2 ^ 96)%N, (1 * 2 ^ 96)%N,
      [HMS.TreatNextPatient "2024-05-01 09:00:00"].
    reflexivity. }
  exact (proj2 (@add_then_undo ascii_lower s "2024-05-01 09:05:00"
                  (Some "Administered medication") "1a2b3c4d" Hr eq_refl)).
Defined.

(** X12. Assigning a doctor.  With no current patient
    [assign_doctor_to_current] returns [False] and changes nothing.  In a
    reachable state with a current patient it returns [True]; the status
    and the patient's record then show the doctor given, the history and
    every other ledger are as before; and a second assignment replaces the
    first as if the first had not been made. *)
Theorem assign_doctor_to_current_effects `{StrLower} s d d2 :
  HMS.reachable s →
  (current_treatment_id s = None →
   HMS.assign_doctor_to_current d s = (Ret false, s)) ∧
  (∀ i, current_treatment_id s = Some i →
        let s' := snd (HMS.assign_doctor_to_current d s) in
        fst (HMS.assign_doctor_to_current d s) = Ret true ∧
        HMS.status_assigned_doctor (HMS.get_status_data s') = d ∧
        HMS.history_data (HMS.get_status_data s')
          = HMS.history_data (HMS.get_status_data s) ∧
        (assigned_doctor <$> patient_records s' !! i) = Some d ∧
        (∀ j, j ≠ i → patient_records s' !! j = patient_records s !! j) ∧
        HMS.assign_doctor_to_current d2 s'
          = HMS.assign_doctor_to_current d2 s).
Proof.
  intros Hreach. pose proof (reachable_inv s Hreach) as Hinv. split.
  - intros Hn. apply no_current_assign. by rewrite Hn.
  - intros i Hi s'.
    destruct (current_cases s Hinv) as [Hf | (i' & r & Hc & Ht & Hr)].
    { destruct Hinv as (_ & _ & Hcur). destruct (Hcur i Hi) as [Hlen _].
      rewrite Hi, (length8_truthy i Hlen) in Hf. discriminate. }
    assert (i' = i) as -> by congruence.
    unfold s'. rewrite (current_assign d s i r Hc Ht Hr). cbn [fst snd].
    split_and!.
    + done.
    + unfold HMS.get_status_data. cbn. by rewrite Hc, lookup_insert_eq.
    + unfold HMS.get_status_data. cbn. by rewrite Hc, lookup_insert_eq, Hr.
    + cbn. by rewrite lookup_insert_eq.
    + intros j Hj. cbn. by rewrite lookup_insert_ne.
    + rewrite (current_assign d2 s i r Hc Ht Hr).
      rewrite (current_assign d2 _ i (Stack.set_assigned_doctor d r));
        [|done|done|cbn; by rewrite lookup_insert_eq].
      cbn. by rewrite insert_insert_eq.
Qed.

Lemma assign_doctor_to_current_effects_witness :
  let s0 := @HMS.init ascii_lower "City General Hospital"
              (439041101 * 2 ^ 96)%N (1 * 2 ^ 96)%N in
  let s := HMS.run [HMS.TreatNextPatient "2024-05-01 09:00:00"] s0 in
  HMS.assign_doctor_to_current (Some "Dr. Jose Garcia") s0 = (Ret false, s0) ∧
  HMS.status_assigned_doctor
    (HMS.get_status_data
       (snd (HMS.assign_doctor_to_current (Some "Dr. Jose Garcia") s)))
  = Some "Dr. Jose Garcia".
Proof.
  intros s0 s.
  assert (H0 : @HMS.reachable ascii_lower s0).
  { exists "City General Hospital", (439041101 * 2 ^ 96)%N, (1 * 2 ^ 96)%N, [].
    reflexivity. }
  assert (H1 : @HMS.reachable ascii_lower s).
  { exists "City General Hospital", (439041101 * 2 ^ 96)%N, (1 * 2 ^ 96)%N,
      [HMS.TreatNextPatient "2024-05-01 09:00:00"].
    reflexivity. }
  split.
  - exact (proj1 (@assign_doctor_to_current_effects ascii_lower s0
                    (Some "Dr. Jose Garcia") None H0) eq_refl).
  - exact (proj1 (proj2 (proj2 (@assign_doctor_to_current_effects ascii_lower
                    s (Some "Dr. Jose Garcia") None H1) "1a2b3c4d" eq_refl))).
Defined.

(** ** The request handlers *)

(** X13. The handlers for adding a treatment step and for assigning a
    doctor never answer with code 500: their "Failed to ..." branch
    cannot be taken, in any state and for any request, because the
    facade returns [False] only when there is no current patient and the
    handler has answered 400 before it calls the facade in that case. *)
Theorem handlers_never_500 body now s :
  App.resp_code (fst (App.add_treatment body now s)) ≠ 500 ∧
  App.resp_code (fst (App.assign_doctor body s)) ≠ 500.
Proof.
  split.
  - unfold App.add_treatment. destruct body as [data|]; [|done].
    destruct (truthy (current_treatment_id s)) eqn:Ht; [|done]. cbn.
    unfold HMS.add_treatment_step. rewrite Ht. cbn.
    destruct (current_treatment_id s) as [i|]; [|done].
    by destruct (patient_records s !! i).
  - unfold App.assign_doctor. destruct body as [data|]; [|done].
    destruct (truthy (current_treatment_id s)) eqn:Ht; [|done]. cbn.
    unfold HMS.assign_doctor_to_current. rewrite Ht. cbn.
    destruct (current_treatment_id s) as [i|]; [|done].
    by destruct (patient_records s !! i).
Qed.



(** X15. The handler that starts the next treatment, in a reachable
    state.  If the queue shows nothing it answers "Queue is empty. No
    patient to treat." and only the current-treatment slot changes: it
    is cleared.  If the queue shows a patient first it answers "Started
    treating patient ID: <id>"; afterwards that patient is the current
    one, the queue shows the remaining entries and its size is one less,
    and the ledgers of all other identifiers are untouched. *)
Theorem treat_next_handler `{StrLower} s now :
  HMS.reachable s →
  (Queue.to_list (patient_queue s) = [] →
   App.treat_next now s
   = (App.mkResponse "info"
        (App.Text "Queue is empty. No patient to treat.") 200,
      HMS.set_slot None None None None s)) ∧
  (∀ id nm cond rest,
      Queue.to_list (patient_queue s) = (id, nm, cond) :: rest →
      let s' := snd (App.treat_next now s) in
      fst (App.treat_next now s)
      = App.mkResponse "success"
          (App.Text (String.append "Started treating patient ID: " id)) 200 ∧
      current_treatment_id s' = Some id ∧
      current_patient_name s' = Some nm ∧
      current_patient_condition s' = Some cond ∧
      HMS.queue_data (HMS.get_status_data s') = rest ∧
      HMS.queue_size (HMS.get_status_data s')
        = HMS.queue_size (HMS.get_status_data s) - 1 ∧
      ∀ j, j ≠ id → patient_records s' !! j = patient_records s !! j).
Proof.
  intros Hreach.
  pose proof (reachable_inv s Hreach) as ((l & Hq & Hids) & Hlen & _).
  split.
  - intros He. pose proof (to_list_length _ l Hq) as Hl. rewrite He in Hl.
    destruct l; [|discriminate].
    unfold App.treat_next. rewrite treat_next_empty; [done|].
    destruct Hq as (Hc & _). simpl in Hc. unfold Queue.is_empty.
    by rewrite Hc.
  - intros id nm cond rest Hlist s'.
    rewrite (to_list_repr _ l Hq) in Hlist.
    destruct (repr_cons_inv _ _ _ _ Hq Hlist)
      as (a & l' & p & -> & Hp & Hd & Hl').
    unfold to_dict in Hd. injection Hd as <- <- <-.
    destruct (Hids a p ltac:(left) Hp) as [rec Hrec].
    destruct (treat_next_nonempty now s a l' p rec Hq Hp Hrec)
      as (q' & Hq' & Hst & Ht).
    unfold s', App.treat_next. rewrite Ht.
    rewrite (length8_truthy _ (Hlen a p Hp)). cbn [fst snd].
    split_and!; [done..| | |].
    + unfold HMS.get_status_data. cbn.
      by rewrite (to_list_repr q' l' Hq'), Hst.
    + unfold HMS.get_status_data. cbn.
      destruct Hq' as (_ & _ & -> & _). destruct Hq as (_ & _ & -> & _).
      simpl length. lia.
    + intros j Hj. cbn. by rewrite lookup_insert_ne.
Qed.

Lemma treat_next_handler_witness :
  let s := @HMS.init ascii_lower "City General Hospital"
             (439041101 * 2 ^ 96)%N (1 * 2 ^ 96)%N in
  fst (App.treat_next "2024-05-01 09:00:00" s)
  = App.mkResponse "success"
      (App.Text "Started treating patient ID: 1a2b3c4d") 200.
Proof.
  intros s.
  assert (Hr : @HMS.reachable ascii_lower s).
  { exists "City General Hospital", (439041101 * 2 ^ 96)%N, (1 * 2 ^ 96)%N, [].
    reflexivity. }
  exact (proj1 (proj2 (@treat_next_handler ascii_lower s
                         "2024-05-01 09:00:00" Hr)
                  "1a2b3c4d" "Alice Johnson" "Severe fever"
                  [("00000001", "Bob Davis", "Broken arm")] eq_refl)).
Defined.



(** ** Users, registration and login *)

Lemma existsb_username_false users un :
  existsb (fun usr => String.eqb (App.username usr) un) users = false ↔
  un ∉ App.username <$> users.
Proof.
  induction users as [|x users IH]; simpl.
  - split; [|done]. intros _ Hin. by apply elem_of_nil in Hin.
  - rewrite orb_false_iff, IH, not_elem_of_cons, String.eqb_neq.
    split; intros [Hx Hr]; split; [congruence|done|congruence|done].
Qed.

(** One registration request: the list is unchanged, or the user asked for
    is appended, which happens exactly when both fields are non-empty and
    the name is not taken. *)
Lemma register_page_cases post u p users :
  ((snd (App.register_page post u p users) = users) ∧
   (fst (App.register_page post u p users) ≠ App.Redirect "login_page")) ∨
  (∃ un pw, u = Some un ∧ p = Some pw ∧ post = true ∧
            un ≠ "" ∧ pw ≠ "" ∧ (un ∉ App.username <$> users) ∧
            App.register_page post u p users
            = (App.Redirect "login_page", users ++ [App.mkUser un pw])).
Proof.
  unfold App.register_page. destruct post; [|by left].
  destruct u as [un|]; [|by left]. destruct p as [pw|]; [|by left].
  destruct (truthy (Some un)) eqn:Hu; [|by left].
  destruct (truthy (Some pw)) eqn:Hp; [|by left]. cbn [negb orb].
  destruct (existsb _ users) eqn:He; [by left|]. right.
  exists un, pw. cbn in Hu, Hp.
  apply negb_true_iff, String.eqb_neq in Hu, Hp.
  apply existsb_username_false in He. done.
Qed.

Lemma register_page_ok post u p users :
  users_ok users → users_ok (snd (App.register_page post u p users)).
Proof.
  intros [Hnd Hall].
  destruct (register_page_cases post u p users)
    as [[-> _]|(un & pw & _ & _ & _ & Hun & Hpw & Hnew & ->)]; [done|].
  cbn [snd]. split.
  - rewrite fmap_app. apply NoDup_app. split_and!; [done| |].
    + intros x Hx ->%list_elem_of_singleton. done.
    + apply NoDup_singleton.
  - apply Forall_app. split; [done|]. by repeat constructor.
Qed.

Lemma register_all_ok reqs users :
  users_ok users →
  users_ok (App.register_all reqs users) ∧
  ∃ ext, App.register_all reqs users = users ++ ext.
Proof.
  revert users. induction reqs as [|[u p] reqs IH]; intros users Hok.
  - split; [done|]. exists []. by rewrite app_nil_r.
  - change (App.register_all ((u, p) :: reqs) users)
      with (App.register_all reqs (snd (App.register_page true u p users))).
    destruct (IH _ (register_page_ok true u p users Hok)) as [Hok' [ext Hext]].
    split; [done|]. rewrite Hext.
    destruct (register_page_cases true u p users)
      as [[-> _]|(un & pw & _ & _ & _ & _ & _ & _ & ->)]; [eauto|].
    cbn [snd]. rewrite <- app_assoc. eauto.
Qed.

Lemma users_ok_initial : users_ok App.MOCK_USERS.
Proof.
  split.
  - apply NoDup_singleton.
  - by repeat constructor.
Qed.


Lemma login_find users u p :
  (∃ usr, List.find (fun usr => App.field_eq (App.username usr) (Some u)
                               && App.field_eq (App.password usr) (Some p))
            users = Some usr) ↔
  App.mkUser u p ∈ users.
Proof.
  split.
  - intros [usr Hf]. apply find_some in Hf as [Hin Hb].
    apply andb_true_iff in Hb as [Hu Hp]. cbn in Hu, Hp.
    apply String.eqb_eq in Hu, Hp. apply list_elem_of_In in Hin.
    destruct usr. cbn in *. by subst.
  - intros Hin.
    destruct (List.find _ users) as [usr|] eqn:Hf; [eauto|].
    apply list_elem_of_In in Hin.
    pose proof (find_none _ _ Hf _ Hin) as Hb. cbn in Hb.
    by rewrite !String.eqb_refl in Hb.
Qed.

Lemma login_stored users sess u p :
  App.mkUser u p ∈ users →
  App.login_page true (Some u) (Some p) users sess
  = (App.Redirect "main_app_page", App.mkSession true (Some u)).
Proof.
  intros Hin. apply login_find in Hin as [usr Hf].
  unfold App.login_page. by rewrite Hf.
Qed.

Lemma login_not_stored users sess u p :
  App.mkUser u p ∉ users →
  App.login_page true (Some u) (Some p) users sess
  = (App.Render "login.html"
       (Some "Invalid Credentials. Please try again."), sess).
Proof.
  intros Hnin. unfold App.login_page.
  destruct (List.find _ users) as [usr|] eqn:Hf; [|done].
  exfalso. apply Hnin, login_find. eauto.
Qed.

(** X18. Login succeeds exactly on stored credentials.  A [POST] with a
    user name and password that are the name and password of one stored
    user redirects to the dashboard and marks the session as logged in
    under that name; with any other pair, or with a field missing, the
    login page is shown again with "Invalid Credentials. Please try
    again." and the session is untouched.  A [GET] never changes the
    session. *)
Theorem login_exactly_on_credentials users sess :
  (∀ u p,
      App.mkUser u p ∈ users →
      App.login_page true (Some u) (Some p) users sess
      = (App.Redirect "main_app_page", App.mkSession true (Some u))) ∧
  (∀ u p,
      App.mkUser u p ∉ users →
      App.login_page true (Some u) (Some p) users sess
      = (App.Render "login.html"
           (Some "Invalid Credentials. Please try again."), sess)) ∧
  (∀ u p,
      u = None ∨ p = None →
      App.login_page true u p users sess
      = (App.Render "login.html"
           (Some "Invalid Credentials. Please try again."), sess)) ∧
  (∀ u p, App.login_page false u p users sess
          = (App.Render "login.html" None, sess)).
Proof.
  split_and!.
  - intros u p. apply login_stored.
  - intros u p. apply login_not_stored.
  - intros u p Hmiss. unfold App.login_page.
    rewrite (find_none_forall _ users); [done|].
    intros usr _. destruct Hmiss as [-> | ->]; cbn; [done|].
    apply andb_false_r.
  - done.
Qed.

Lemma login_exactly_on_credentials_witness :
  App.login_page true (Some "admin") (Some "password123") App.MOCK_USERS
    (App.mkSession false None)
  = (App.Redirect "main_app_page", App.mkSession true (Some "admin")) ∧
  App.login_page true (Some "admin") (Some "guess") App.MOCK_USERS
    (App.mkSession false None)
  = (App.Render "login.html"
       (Some "Invalid Credentials. Please try again."),
     App.mkSession false None).
Proof.
  split.
  - apply (proj1 (login_exactly_on_credentials App.MOCK_USERS
                    (App.mkSession false None))).
    apply list_elem_of_here.
  - apply (proj1 (proj2 (login_exactly_on_credentials App.MOCK_USERS
                           (App.mkSession false None)))).
    intros Hin%list_elem_of_singleton. discriminate.
Defined.

(** X19. A registered user can log in, then and later.  From the users
    left by any registration requests, registering a non-empty name not
    yet taken, with a non-empty password, redirects to the login page;
    after that and after any further registration requests, login with
    that name and password succeeds and login with that name and any
    other password fails: nobody can take the name again or replace its
    password. *)
Theorem registered_user_can_log_in reqs1 reqs2 u p sess :
  u ≠ "" → p ≠ "" →
  u ∉ App.username <$> App.register_all reqs1 App.MOCK_USERS →
  let users := App.register_all reqs1 App.MOCK_USERS in
  let users' :=
    App.register_all reqs2
      (snd (App.register_page true (Some u) (Some p) users)) in
  fst (App.register_page true (Some u) (Some p) users)
    = App.Redirect "login_page" ∧
  App.login_page true (Some u) (Some p) users' sess
    = (App.Redirect "main_app_page", App.mkSession true (Some u)) ∧
  ∀ p', p' ≠ p →
        App.login_page true (Some u) (Some p') users' sess
        = (App.Render "login.html"
             (Some "Invalid Credentials. Please try again."), sess).
Proof.
  intros Hu Hp Hnew users users'. fold users in Hnew.
  destruct (register_all_ok reqs1 App.MOCK_USERS users_ok_initial)
    as [Hok _]. fold users in Hok.
  destruct (register_page_cases true (Some u) (Some p) users)
    as [[_ Hno]|(un & pw & [= <-] & [= <-] & _ & _ & _ & _ & Hreg)].
  { exfalso. apply Hno. unfold App.register_page.
    assert (Ht1 : truthy (Some u) = true)
      by (cbn; by apply negb_true_iff, String.eqb_neq).
    assert (Ht2 : truthy (Some p) = true)
      by (cbn; by apply negb_true_iff, String.eqb_neq).
    rewrite Ht1, Ht2. cbn [negb orb].
    by rewrite (proj2 (existsb_username_false users u) Hnew). }
  pose proof (register_page_ok true (Some u) (Some p) users Hok) as Hok1.
  destruct (register_all_ok reqs2 _ Hok1) as [[Hnd' _] [ext Hext]].
  fold users' in Hnd', Hext. rewrite Hreg in Hext. cbn [snd] in Hext.
  assert (Hin : App.mkUser u p ∈ users').
  { rewrite Hext. apply elem_of_app. left. apply elem_of_app. right.
    apply list_elem_of_here. }
  split_and!.
  - by rewrite Hreg.
  - by apply login_stored.
  - intros p' Hp'. apply login_not_stored. intros Hin'.
    apply list_elem_of_lookup in Hin as [i Hi].
    apply list_elem_of_lookup in Hin' as [j Hj].
    assert (i = j).
    { apply (NoDup_lookup _ i j u Hnd');
        rewrite list_lookup_fmap; [by rewrite Hi|by rewrite Hj]. }
    subst j. rewrite Hi in Hj. by injection Hj.
Qed.

Lemma registered_user_can_log_in_witness :
  let users' :=
    App.register_all [(Some "nurse", Some "other")]
      (snd (App.register_page true (Some "nurse") (Some "s3cret")
              App.MOCK_USERS)) in
  App.login_page true (Some "nurse") (Some "s3cret") users'
    (App.mkSession false None)
  = (App.Redirect "main_app_page", App.mkSession true (Some "nurse")) ∧
  App.login_page true (Some "nurse") (Some "other") users'
    (App.mkSession false None)
  = (App.Render "login.html"
       (Some "Invalid Credentials. Please try again."),
     App.mkSession false None).
Proof.
  intros users'.
  assert (Hnew : "nurse" ∉ App.username <$> App.register_all [] App.MOCK_USERS).
  { intros Hin%list_elem_of_singleton. discriminate. }
  destruct (registered_user_can_log_in [] [(Some "nurse", Some "other")]
              "nurse" "s3cret" (App.mkSession false None)
              ltac:(discriminate) ltac:(discriminate) Hnew)
    as (_ & Hlogin & Hother).
  split; [exact Hlogin|]. apply Hother. discriminate.
Defined.

(** ** The specialization tree: search order and doctors *)

Lemma preorder_paths_unfold t :
  preorder_paths t = ([], t) :: paths_each (children t) 0.
Proof.
  by destruct t as [n ds cs].
Qed.

Lemma find_fmap {A B} (f : B → bool) (g : A → B) l :
  List.find f (g <$> l) = g <$> List.find (f ∘ g) l.
Proof.
  induction l as [|x l IH]; [done|]. simpl.
  destruct (f (g x)); [done|]. exact IH.
Qed.

Lemma find_app {A} (f : A → bool) l1 l2 :
  List.find f (l1 ++ l2)
  = match List.find f l1 with Some x => Some x | None => List.find f l2 end.
Proof.
  induction l1 as [|x l1 IH]; [done|]. simpl. by destruct (f x).
Qed.

Lemma find_each_paths `{StrLower} nm cs i :
  Forall (λ c, Tree._find_node c nm
               = fst <$> List.find (matches nm) (preorder_paths c)) cs →
  find_each nm cs i = fst <$> List.find (matches nm) (paths_each cs i).
Proof.
  revert i. induction cs as [|c cs IH]; intros i Hall; [done|].
  apply Forall_cons in Hall as [Hc Hall]. simpl.
  rewrite find_app, find_fmap, Hc.
  change (matches nm ∘ prod_map (cons i) id) with (matches nm).
  destruct (List.find (matches nm) (preorder_paths c)) as [[p n]|]; [done|].
  cbn. by apply IH.
Qed.

Lemma paths_each_subtree cs i p n :
  Forall (λ c, ∀ p n, (p, n) ∈ preorder_paths c → Tree.subtree p c = Some n)
    cs →
  (p, n) ∈ paths_each cs i →
  ∃ j c p', p = (i + j)%nat :: p' ∧ cs !! j = Some c ∧
            Tree.subtree p' c = Some n.
Proof.
  revert i. induction cs as [|c cs IH]; intros i Hall Hin.
  - by apply elem_of_nil in Hin.
  - apply Forall_cons in Hall as [Hc Hall]. simpl in Hin.
    apply elem_of_app in Hin as [Hin|Hin].
    + apply list_elem_of_fmap in Hin as ([p' n'] & Heq & Hin).
      cbn in Heq. injection Heq as -> ->.
      exists 0%nat, c, p'. rewrite Nat.add_0_r. eauto.
    + destruct (IH _ Hall Hin) as (j & c' & p' & -> & Hj & Hs).
      exists (S j), c', p'. split_and!; [f_equal; lia|done..].
Qed.

Lemma preorder_paths_names_each cs i :
  Forall (λ c, preorder c = (spec_name ∘ snd) <$> preorder_paths c) cs →
  concat (preorder <$> cs) = (spec_name ∘ snd) <$> paths_each cs i.
Proof.
  revert i. induction cs as [|c cs IH]; intros i Hall; [done|].
  apply Forall_cons in Hall as [Hc Hall].
  change (concat (preorder <$> c :: cs))
    with (preorder c ++ concat (preorder <$> cs)).
  change (paths_each (c :: cs) i)
    with ((prod_map (cons i) id <$> preorder_paths c) ++ paths_each cs (S i)).
  rewrite fmap_app, <- list_fmap_compose, (IH (S i) Hall), Hc. done.
Qed.

(** X20. The first match wins.  [_find_node] returns the path of the first
    node, in depth-first order (a node before its children, the children
    in list order), whose lower-cased name is the lower-cased name
    searched; [preorder_paths] lists the nodes in that order, each with
    the path that leads to it. *)
Theorem find_node_first_match `{StrLower} t nm :
  Tree._find_node t nm
    = fst <$> List.find (matches nm) (preorder_paths t) ∧
  (∀ p n, (p, n) ∈ preorder_paths t → Tree.subtree p t = Some n) ∧
  preorder t = (spec_name ∘ snd) <$> preorder_paths t.
Proof.
  induction t as [n ds cs IH] using SpecializationNode_ind.
  rewrite preorder_paths_unfold, _find_node_unfold.
  cbn [children spec_name]. split_and!.
  - cbn [List.find]. unfold matches at 1. cbn [snd spec_name].
    destruct (String.eqb (lower n) (lower nm)); [done|].
    apply find_each_paths.
    eapply Forall_impl; [exact IH|]. by intros c (Hc & _).
  - intros p node Hin. apply elem_of_cons in Hin as [[= -> ->]|Hin]; [done|].
    assert (Hall : Forall (λ c, ∀ p n, (p, n) ∈ preorder_paths c →
                                       Tree.subtree p c = Some n) cs).
    { eapply Forall_impl; [exact IH|]. by intros c (_ & Hc & _). }
    destruct (paths_each_subtree cs 0 p node Hall Hin)
      as (j & c & p' & -> & Hj & Hs).
    simpl. by rewrite Hj.
  - cbn. f_equal. apply preorder_paths_names_each.
    eapply Forall_impl; [exact IH|]. by intros c (_ & _ & Hc).
Qed.

Lemma dict_get_set k v d k' :
  dict_get k' (dict_set k v d)
  = if String.eqb k k' then Some v else dict_get k' d.
Proof.
  induction d as [|[k0 v0] d IH]; simpl.
  - done.
  - destruct (String.eqb k0 k) eqn:E0; simpl.
    + apply String.eqb_eq in E0 as ->.
      by destruct (String.eqb k k').
    + rewrite IH. destruct (String.eqb k0 k') eqn:E1; [|done].
      apply String.eqb_eq in E1 as ->. by rewrite String.eqb_sym, E0.
Qed.

Lemma dict_set_keys k v d :
  fst <$> dict_set k v d
  = if bool_decide (k ∈ fst <$> d) then fst <$> d else (fst <$> d) ++ [k].
Proof.
  induction d as [|[k0 v0] d IH]; [done|]. cbn [dict_set].
  destruct (String.eqb k0 k) eqn:E0.
  - apply String.eqb_eq in E0 as ->.
    change (fst <$> (k, v0) :: d) with (k :: (fst <$> d)).
    rewrite bool_decide_eq_true_2; [done|].
    apply list_elem_of_here.
  - apply String.eqb_neq in E0.
    change (fst <$> (k0, v0) :: dict_set k v d)
      with (k0 :: (fst <$> dict_set k v d)).
    change (fst <$> (k0, v0) :: d) with (k0 :: (fst <$> d)).
    rewrite IH.
    destruct (bool_decide (k ∈ fst <$> d)) eqn:Ed.
    + apply bool_decide_eq_true_1 in Ed. rewrite bool_decide_eq_true_2; [done|].
      by apply list_elem_of_further.
    + apply bool_decide_eq_false_1 in Ed.
      rewrite bool_decide_eq_false_2; [done|].
      intros [?|?]%elem_of_cons; [congruence|done].
Qed.

Lemma find_each_alter `{StrLower} nm g cs i j :
  (∀ c, cs !! i = Some c → Tree._find_node (g c) nm = Tree._find_node c nm) →
  find_each nm (alter g i cs) j = find_each nm cs j.
Proof.
  revert i j. induction cs as [|c cs IH]; intros i j Hg; [done|].
  destruct i as [|i]; simpl.
  - by rewrite (Hg c eq_refl).
  - destruct (Tree._find_node c nm); [done|]. apply IH.
    intros c' Hc'. by apply Hg.
Qed.

(** A change of the doctors of one node does not change what any search
    finds. *)
Lemma find_update_doctors `{StrLower} p d desc t nm :
  Tree._find_node (Tree.update_at p (Tree.put_doctor d desc) t) nm
  = Tree._find_node t nm.
Proof.
  revert t. induction p as [|i p IH]; intros t;
    cbn [Tree.update_at]; rewrite !_find_node_unfold.
  - done.
  - cbn [spec_name children].
    destruct (String.eqb _ _); [done|].
    apply find_each_alter. intros c _. apply IH.
Qed.

Lemma preorder_update_doctors p d desc t :
  preorder (Tree.update_at p (Tree.put_doctor d desc) t) = preorder t.
Proof.
  revert t. induction p as [|i p IH]; intros [n ds cs]; [done|].
  cbn [Tree.update_at preorder spec_name children doctors]. f_equal. f_equal.
  generalize i. clear i. induction cs as [|c cs IHcs]; intros i; [done|].
  destruct i as [|i].
  - change (preorder (Tree.update_at p (Tree.put_doctor d desc) c)
            :: (preorder <$> cs) = preorder c :: (preorder <$> cs)).
    by rewrite IH.
  - change (preorder c
            :: (preorder
                  <$> alter (Tree.update_at p (Tree.put_doctor d desc)) i cs)
            = preorder c :: (preorder <$> cs)).
    by rewrite IHcs.
Qed.

(** X21. [assign_doctor] succeeds exactly when the search finds the
    specialization.  It then stores the description under the doctor's
    name in the node found: a doctor already listed there keeps its place
    and gets the new description, a new one goes last, every other doctor
    of the node keeps its description; the names of the tree and the
    result of every search are unchanged.  When the search finds nothing
    it returns [False] and the tree it was given. *)
Theorem assign_doctor_outcomes `{StrLower} root sp d desc :
  (fst (Tree.assign_doctor sp d desc root) = true
   ↔ is_Some (Tree._find_node root sp)) ∧
  (∀ p, Tree._find_node root sp = Some p →
        ∃ node node' root',
          Tree.assign_doctor sp d desc root = (true, root') ∧
          Tree.subtree p root = Some node ∧
          Tree.subtree p root' = Some node' ∧
          spec_name node' = spec_name node ∧
          children node' = children node ∧
          dict_get d (doctors node') = Some desc ∧
          (∀ d', d' ≠ d →
                 dict_get d' (doctors node') = dict_get d' (doctors node)) ∧
          fst <$> doctors node'
            = (if bool_decide (d ∈ fst <$> doctors node)
               then fst <$> doctors node
               else (fst <$> doctors node) ++ [d]) ∧
          preorder root' = preorder root ∧
          ∀ nm, Tree._find_node root' nm = Tree._find_node root nm) ∧
  (Tree._find_node root sp = None →
   Tree.assign_doctor sp d desc root = (false, root)).
Proof.
  unfold Tree.assign_doctor. split_and!.
  - destruct (Tree._find_node root sp); simpl.
    + split; eauto.
    + split; [done|]. by intros [? ?].
  - intros p Hp. rewrite Hp.
    destruct (_find_node_sound _ _ _ Hp) as (node & Hn & _).
    exists node, (Tree.put_doctor d desc node),
      (Tree.update_at p (Tree.put_doctor d desc) root).
    split_and!; [done|done| |done|done| | | | |].
    + by apply subtree_update.
    + cbn. by rewrite dict_get_set, String.eqb_refl.
    + intros d' Hd'. cbn. rewrite dict_get_set.
      by rewrite (proj2 (String.eqb_neq d d')).
    + cbn. apply dict_set_keys.
    + apply preorder_update_doctors.
    + intros nm. apply find_update_doctors.
  - by intros ->.
Qed.

Lemma assign_doctor_outcomes_witness :
  let root := @Tree.new ascii_lower "City General Hospital" in
  let root' :=
    snd (@Tree.assign_doctor ascii_lower "trauma" "Dr. Paolo Ocampo"
           "Head of trauma." root) in
  @Tree._find_node ascii_lower root "trauma" = Some [0; 0]%nat ∧
  (doctors <$> Tree.subtree [0; 0]%nat root')
  = Some [("Dr. Paolo Ocampo", "Head of trauma.");
          ("Dra. Lea Perez",
           "Focuses on stabilization and surgical planning for acute trauma.")] ∧
  preorder root' = preorder root.
Proof.
  intros root root'.
  assert (Hf : @Tree._find_node ascii_lower root "trauma" = Some [0; 0]%nat)
    by (vm_compute; reflexivity).
  split; [exact Hf|]. split; [vm_compute; reflexivity|].
  destruct (proj1 (proj2 (@assign_doctor_outcomes ascii_lower root "trauma"
                            "Dr. Paolo Ocampo" "Head of trauma.")) _ Hf)
    as (node & node' & r' & Heq & _ & _ & _ & _ & _ & _ & _ & Hpre & _).
  unfold root'. rewrite Heq. exact Hpre.
Defined.

(** ** The seeded directory *)

Lemma add_specialization_at_root `{StrLower} h ds cs child :
  snd (Tree.add_specialization h child (mkSpecializationNode h ds cs))
  = mkSpecializationNode h ds (cs ++ [Tree.new_node child]).
Proof.
  unfold Tree.add_specialization. rewrite _find_node_unfold.
  cbn [spec_name]. by rewrite String.eqb_refl.
Qed.

Lemma add_specialization_below `{StrLower} h ds cs parent child :
  lower h ≠ lower parent →
  snd (Tree.add_specialization parent child (mkSpecializationNode h ds cs))
  = mkSpecializationNode h ds
      (match find_each parent cs 0 with
       | Some (i :: q) =>
           alter (Tree.update_at q
                    (Tree.append_child (Tree.new_node child))) i cs
       | _ => cs
       end).
Proof.
  intros Hne. unfold Tree.add_specialization. rewrite _find_node_unfold.
  cbn [spec_name children].
  rewrite (proj2 (String.eqb_neq _ _) Hne).
  destruct (find_each parent cs 0) as [q|] eqn:E; [|done].
  destruct (find_each_Some _ _ _ _ E) as (j & c & p' & -> & _). done.
Qed.

Lemma assign_doctor_below `{StrLower} h ds cs sp d desc :
  lower h ≠ lower sp →
  snd (Tree.assign_doctor sp d desc (mkSpecializationNode h ds cs))
  = mkSpecializationNode h ds
      (match find_each sp cs 0 with
       | Some (i :: q) =>
           alter (Tree.update_at q (Tree.put_doctor d desc)) i cs
       | _ => cs
       end).
Proof.
  intros Hne. unfold Tree.assign_doctor. rewrite _find_node_unfold.
  cbn [spec_name children].
  rewrite (proj2 (String.eqb_neq _ _) Hne).
  destruct (find_each sp cs 0) as [q|] eqn:E; [|done].
  destruct (find_each_Some _ _ _ _ E) as (j & c & p' & -> & _). done.
Qed.

Lemma seed_step_below `{StrLower} h ds cs c :
  lower h ≠ lower (call_target c) →
  Tree.seed_step (mkSpecializationNode h ds cs) c
  = mkSpecializationNode h ds (forest_step cs c).
Proof.
  intros Hne. destruct c as [parent child|sp d desc];
    unfold Tree.seed_step, forest_step; cbn [call_target] in *.
  - rewrite (add_specialization_below h ds cs parent child Hne).
    by destruct (find_each parent cs 0) as [[|i q]|].
  - rewrite (assign_doctor_below h ds cs sp d desc Hne).
    by destruct (find_each sp cs 0) as [[|i q]|].
Qed.

Lemma foldl_seed_below `{StrLower} h ds cs script :
  Forall (λ c, lower h ≠ lower (call_target c)) script →
  foldl Tree.seed_step (mkSpecializationNode h ds cs) script
  = mkSpecializationNode h ds (foldl forest_step cs script).
Proof.
  revert cs. induction script as [|c script IH]; intros cs Hall; [done|].
  apply Forall_cons in Hall as [Hc Hall].
  cbn [foldl]. rewrite (seed_step_below h ds cs c Hc). by apply IH.
Qed.

Lemma seed_script_targets :
  Forall (λ c, call_target c ∈ departments) (drop 3 (Tree.seed_script "")).
Proof.
  unfold departments. cbn [drop Tree.seed_script].
  repeat (apply Forall_cons; split;
          [cbn [call_target];
           repeat (first [apply list_elem_of_here
                         |apply list_elem_of_further])|]).
  apply Forall_nil_2.
Qed.

Lemma seed_script_split h :
  Tree.seed_script h
  = Tree.AddSpec h "Emergency"
    :: Tree.AddSpec h "Internal Medicine"
    :: Tree.AddSpec h "Surgery" :: drop 3 (Tree.seed_script "").
Proof. reflexivity. Qed.

Lemma foldl_cons_eq {A B} (f : A → B → A) s x l :
  foldl f s (x :: l) = foldl f (f s x) l.
Proof. reflexivity. Qed.

Lemma seed_step_add `{StrLower} root parent child :
  Tree.seed_step root (Tree.AddSpec parent child)
  = snd (Tree.add_specialization parent child root).
Proof. reflexivity. Qed.

Lemma new_as_forest `{StrLower} h :
  Forall (λ d, lower h ≠ lower d) departments →
  Tree.new h
  = mkSpecializationNode h []
      (foldl forest_step
         [Tree.new_node "Emergency"; Tree.new_node "Internal Medicine";
          Tree.new_node "Surgery"] (drop 3 (Tree.seed_script ""))).
Proof.
  intros Hne. rewrite Forall_forall in Hne.
  assert (Hrest : Forall (λ c, lower h ≠ lower (call_target c))
                    (drop 3 (Tree.seed_script ""))).
  { apply Forall_forall. intros c Hc. apply Hne.
    pose proof seed_script_targets as Hsub.
    rewrite Forall_forall in Hsub. by apply Hsub. }
  unfold Tree.new, Tree._seed_structure.
  change (Tree.new_node h) with (mkSpecializationNode h [] []).
  change (spec_name (mkSpecializationNode h [] [])) with h.
  rewrite seed_script_split, !foldl_cons_eq, !seed_step_add.
  rewrite !add_specialization_at_root.
  rewrite (foldl_seed_below h [] _ _ Hrest).
  reflexivity.
Qed.

Lemma seeded_forest :
  @foldl _ _ (@forest_step ascii_lower)
    [Tree.new_node "Emergency"; Tree.new_node "Internal Medicine";
     Tree.new_node "Surgery"] (drop 3 (Tree.seed_script ""))
  = children (@Tree.new ascii_lower "City General Hospital").
Proof. vm_compute. reflexivity. Qed.

Lemma seeded_forest_preorder :
  concat (preorder
            <$> children (@Tree.new ascii_lower "City General Hospital"))
  = [ "Emergency"; "Trauma"; "Internal Medicine"; "Cardiology";
      "Electrophysiology"; "Dermatology"; "Pediatrics"; "Surgery";
      "Orthopedics"; "Sports Medicine" ].
Proof. vm_compute. reflexivity. Qed.

(** X22. The seeded directory does not depend on the name of the
    hospital, as long as that name is not, up to the case of ASCII
    letters, the name of one of the ten departments: the root carries
    the hospital name and no doctor, and below it the departments, their
    nesting, their order and their doctors are those seeded for the
    default name.  In depth-first order the tree reads: the hospital,
    Emergency, Trauma, Internal Medicine, Cardiology, Electrophysiology,
    Dermatology, Pediatrics, Surgery, Orthopedics, Sports Medicine. *)
Theorem seeded_directory h :
  Forall (λ d, lower_string h ≠ lower_string d) departments →
  spec_name (@Tree.new ascii_lower h) = h ∧
  doctors (@Tree.new ascii_lower h) = [] ∧
  children (@Tree.new ascii_lower h)
    = children (@Tree.new ascii_lower "City General Hospital") ∧
  preorder (@Tree.new ascii_lower h)
    = [ h; "Emergency"; "Trauma"; "Internal Medicine"; "Cardiology";
        "Electrophysiology"; "Dermatology"; "Pediatrics"; "Surgery";
        "Orthopedics"; "Sports Medicine" ].
Proof.
  intros Hne.
  rewrite (@new_as_forest ascii_lower h Hne), seeded_forest.
  split_and!; [reflexivity..|].
  cbn [preorder spec_name children]. rewrite seeded_forest_preorder.
  reflexivity.
Qed.

Lemma seeded_directory_witness :
  children (@Tree.new ascii_lower "Riverside Clinic")
  = children (@Tree.new ascii_lower "City General Hospital") ∧
  preorder (@Tree.new ascii_lower "Riverside Clinic")
  = [ "Riverside Clinic"; "Emergency"; "Trauma"; "Internal Medicine";
      "Cardiology"; "Electrophysiology"; "Dermatology"; "Pediatrics";
      "Surgery"; "Orthopedics"; "Sports Medicine" ].
Proof.
  assert (Hne : Forall (λ d, lower_string "Riverside Clinic"
                             ≠ lower_string d) departments).
  { unfold departments. repeat constructor; vm_compute; discriminate. }
  destruct (seeded_directory "Riverside Clinic" Hne) as (_ & _ & Hc & Hp).
  split; [exact Hc|exact Hp].
Defined.

(** When the hospital is named like a department the search for that
    department stops at the root: the surgeon is listed at the root and
    Orthopedics is placed beside Surgery, not below it. *)
Lemma seeded_directory_name_clash :
  fst <$> doctors (@Tree.new ascii_lower "Surgery") = ["Dr. Roberto Lim"] ∧
  spec_name <$> children (@Tree.new ascii_lower "Surgery")
  = ["Emergency"; "Internal Medicine"; "Surgery"; "Orthopedics"].
Proof. split; vm_compute; reflexivity. Qed.

(** ** Which records exist, and the order of treatment *)

Lemma is_Some_insert_iff (m : gmap string TreatmentStack) k v j :
  is_Some (<[k:=v]> m !! j) ↔ j = k ∨ is_Some (m !! j).
Proof.
  destruct (decide (k = j)) as [->|Hne].
  - rewrite lookup_insert_eq. split; [by left|eauto].
  - rewrite lookup_insert_ne by done. split; [by right|].
    intros [->|?]; [done|done].
Qed.

Lemma is_Some_insert_same (m : gmap string TreatmentStack) k v j :
  is_Some (m !! k) → is_Some (<[k:=v]> m !! j) ↔ is_Some (m !! j).
Proof.
  intros Hk. rewrite is_Some_insert_iff. split; [|by right].
  by intros [->|?].
Qed.

Lemma step_records_keys o s pid :
  hms_inv s →
  is_Some (patient_records (HMS.step o s) !! pid) ↔
  is_Some (patient_records s !! pid) ∨ pid ∈ drawn_ids [o].
Proof.
  intros Hinv.
  assert (Hnone : ∀ P : Prop, P ↔ P ∨ pid ∈ @nil string).
  { intros P. split; [by left|]. intros [?|Hin]; [done|].
    by apply elem_of_nil in Hin. }
  destruct o as [u nm cond|now|now d| |d]; cbn.
  - destruct Hinv as ((l & Hq & _) & _).
    rewrite (register_patient_eq u nm cond s l Hq). cbn.
    rewrite is_Some_insert_iff, list_elem_of_singleton. tauto.
  - destruct Hinv as ((l & Hq & Hids) & _). destruct l as [|a l].
    + rewrite treat_next_empty; [apply Hnone|].
      destruct Hq as (Hc & _). simpl in Hc. unfold Queue.is_empty.
      by rewrite Hc.
    + pose proof Hq as ([_ (p & Hp & _)] & _).
      destruct (Hids a p ltac:(left) Hp) as [rec Hrec].
      destruct (treat_next_nonempty now s a l p rec Hq Hp Hrec)
        as (q' & _ & _ & ->).
      cbn. rewrite is_Some_insert_same by eauto. apply Hnone.
  - destruct (current_cases s Hinv) as [Hf | (i & r & Hc & Ht & Hr)].
    + rewrite (no_current_add now d s Hf). apply Hnone.
    + rewrite (current_add now d s i r Hc Ht Hr). cbn.
      rewrite is_Some_insert_same by eauto. apply Hnone.
  - destruct (current_cases s Hinv) as [Hf | (i & r & Hc & Ht & Hr)].
    + rewrite (no_current_undo s Hf). apply Hnone.
    + rewrite (current_undo s i r Hc Ht Hr). cbn.
      rewrite is_Some_insert_same by eauto. apply Hnone.
  - destruct (current_cases s Hinv) as [Hf | (i & r & Hc & Ht & Hr)].
    + rewrite (no_current_assign d s Hf). apply Hnone.
    + rewrite (current_assign d s i r Hc Ht Hr). cbn.
      rewrite is_Some_insert_same by eauto. apply Hnone.
Qed.

Lemma run_records_keys ops s pid :
  hms_inv s →
  is_Some (patient_records (HMS.run ops s) !! pid) ↔
  is_Some (patient_records s !! pid) ∨ pid ∈ drawn_ids ops.
Proof.
  revert s. induction ops as [|o ops IH]; intros s Hinv.
  - cbn. split; [by left|]. intros [?|Hin]; [done|].
    by apply elem_of_nil in Hin.
  - change (HMS.run (o :: ops) s) with (HMS.run ops (HMS.step o s)).
    rewrite IH by by apply step_inv.
    rewrite (step_records_keys o s pid Hinv).
    assert (Happ : drawn_ids (o :: ops) = drawn_ids [o] ++ drawn_ids ops)
      by apply (omap_app _ [o] ops).
    rewrite Happ, elem_of_app. tauto.
Qed.

Lemma get_record_is_Some pid s :
  is_Some (HMS.get_patient_record pid s)
  ↔ is_Some (patient_records s !! pid).
Proof.
  unfold HMS.get_patient_record.
  destruct (patient_records s !! pid); split; intros [? ?]; eauto; done.
Qed.

(** X23. Records exist for exactly the identifiers drawn.  After any
    sequence of operations from construction, [get_patient_record] finds
    a record for an identifier if and only if it is one of the two drawn
    for the pre-loaded patients or one drawn by a registration of the
    sequence; for any other identifier the record handler answers 404
    "Patient record not found.". *)
Theorem records_exactly_for_drawn_ids `{StrLower} hname uuid1 uuid2 ops pid :
  let s := HMS.run ops (HMS.init hname uuid1 uuid2) in
  (is_Some (HMS.get_patient_record pid s)
   ↔ pid ∈ short_id uuid1 :: short_id uuid2 :: drawn_ids ops) ∧
  (pid ∉ short_id uuid1 :: short_id uuid2 :: drawn_ids ops →
   App.get_patient_record pid s
   = inr (App.mkResponse "error" (App.Text "Patient record not found.")
            404)).
Proof.
  intros s.
  assert (Hkeys : is_Some (patient_records s !! pid)
                  ↔ pid ∈ short_id uuid1 :: short_id uuid2 :: drawn_ids ops).
  { unfold s. rewrite (run_records_keys ops _ pid (init_inv _ _ _)).
    unfold HMS.init.
    destruct (Queue.enqueue uuid1 _ _ _) as [a1 q1].
    destruct (Queue.enqueue uuid2 _ _ _) as [a2 q2]. cbn.
    rewrite !is_Some_insert_iff, lookup_empty, !elem_of_cons.
    assert (Hno : ¬ is_Some (@None TreatmentStack)) by by intros [? ?].
    tauto. }
  pose proof (get_record_is_Some pid s) as Hrec.
  split.
  - by rewrite Hrec.
  - intros Hnot. unfold App.get_patient_record.
    destruct (HMS.get_patient_record pid s) eqn:E; [|done].
    exfalso. apply Hnot, Hkeys, Hrec. eauto.
Qed.

Lemma records_exactly_for_drawn_ids_witness :
  let s := HMS.run [HMS.RegisterPatient (7 * 2 ^ 96) "Carol" "Migraine"]
             (@HMS.init ascii_lower "City General Hospital"
                (439041101 * 2 ^ 96)%N (1 * 2 ^ 96)%N) in
  App.get_patient_record "0000000a" s
  = inr (App.mkResponse "error" (App.Text "Patient record not found.") 404).
Proof.
  intros s.
  apply (proj2 (@records_exactly_for_drawn_ids ascii_lower
                  "City General Hospital" (439041101 * 2 ^ 96)%N
                  (1 * 2 ^ 96)%N
                  [HMS.RegisterPatient (7 * 2 ^ 96) "Carol" "Migraine"]
                  "0000000a")).
  vm_compute. intros Hin.
  repeat (apply elem_of_cons in Hin as [Hin|Hin]; [discriminate|]).
  by apply elem_of_nil in Hin.
Defined.

Lemma treat_all_inv nows s :
  hms_inv s →
  length nows = length (Queue.to_list (patient_queue s)) →
  treat_all nows s
  = (λ e, Ret (Some (fst (fst e)))) <$> Queue.to_list (patient_queue s).
Proof.
  revert s. induction nows as [|now nows IH]; intros s Hinv Hlen.
  - destruct (Queue.to_list (patient_queue s)); [done|discriminate].
  - pose proof Hinv as ((l & Hq & Hids) & _).
    destruct (Queue.to_list (patient_queue s)) as [|e es] eqn:Hlist;
      [discriminate|].
    pose proof Hlist as Hlist'. rewrite (to_list_repr _ l Hq) in Hlist'.
    destruct (repr_cons_inv _ _ _ _ Hq Hlist')
      as (a & l' & p & -> & Hp & Hd & Hl').
    destruct (Hids a p ltac:(left) Hp) as [rec Hrec].
    pose proof (treat_next_inv now s Hinv) as [Hinv' _].
    destruct (treat_next_nonempty now s a l' p rec Hq Hp Hrec)
      as (q' & Hq' & Hst & Ht).
    cbn [treat_all fmap list_fmap]. rewrite Ht in *. cbn [fst snd] in *.
    f_equal.
    + rewrite <- Hd. done.
    + rewrite IH; [|done|].
      * cbn [patient_queue]. by rewrite (to_list_repr q' l' Hq'), Hst, Hl'.
      * cbn [patient_queue]. rewrite (to_list_repr q' l' Hq'), Hst, Hl'.
        simpl in Hlen. lia.
Qed.

(** X24. Patients are treated in the order of the queue.  In a reachable
    state whose queue shows [n] entries, [n] successive calls of
    [treat_next_patient] return the identifiers of those entries, in the
    order shown, none of them raising, and one more call returns
    [None]. *)
Theorem treatment_follows_queue_order `{StrLower} s nows now :
  HMS.reachable s →
  length nows = length (Queue.to_list (patient_queue s)) →
  treat_all (nows ++ [now]) s
  = ((λ e, Ret (Some (fst (fst e)))) <$> Queue.to_list (patient_queue s))
    ++ [Ret None].
Proof.
  intros Hreach. pose proof (reachable_inv s Hreach) as Hinv.
  clear Hreach. revert s Hinv.
  induction nows as [|n0 nows IH]; intros s Hinv Hlen.
  - destruct (Queue.to_list (patient_queue s)) eqn:Hl; [|discriminate].
    cbn. f_equal.
    pose proof Hinv as ((l & Hq & _) & _).
    pose proof (to_list_length _ l Hq) as Hll. rewrite Hl in Hll.
    destruct l; [|discriminate]. rewrite treat_next_empty; [done|].
    destruct Hq as (Hc & _). simpl in Hc. unfold Queue.is_empty.
    by rewrite Hc.
  - pose proof (treat_all_inv [n0] s Hinv) as H1.
    pose proof Hinv as ((l & Hq & Hids) & _).
    destruct (Queue.to_list (patient_queue s)) as [|e es] eqn:Hlist;
      [discriminate|].
    pose proof Hlist as Hlist'. rewrite (to_list_repr _ l Hq) in Hlist'.
    destruct (repr_cons_inv _ _ _ _ Hq Hlist')
      as (a & l' & p & -> & Hp & Hd & Hl').
    destruct (Hids a p ltac:(left) Hp) as [rec Hrec].
    pose proof (treat_next_inv n0 s Hinv) as [Hinv' _].
    destruct (treat_next_nonempty n0 s a l' p rec Hq Hp Hrec)
      as (q' & Hq' & Hst & Ht).
    change ((n0 :: nows) ++ [now]) with (n0 :: (nows ++ [now])).
    cbn [treat_all fmap list_fmap app]. rewrite Ht in *. cbn [fst snd] in *.
    f_equal.
    + by rewrite <- Hd.
    + rewrite IH; [|done|].
      * cbn [patient_queue]. by rewrite (to_list_repr q' l' Hq'), Hst, Hl'.
      * cbn [patient_queue]. rewrite (to_list_repr q' l' Hq'), Hst, Hl'.
        simpl in Hlen. lia.
Qed.

Lemma treatment_follows_queue_order_witness :
  let s := HMS.run [HMS.RegisterPatient (7 * 2 ^ 96) "Carol" "Migraine"]
             (@HMS.init ascii_lower "City General Hospital"
                (439041101 * 2 ^ 96)%N (1 * 2 ^ 96)%N) in
  treat_all ["09:00"; "09:30"; "10:00"; "10:30"] s
  = [Ret (Some "1a2b3c4d"); Ret (Some "00000001"); Ret (Some "00000007");
     Ret None].
Proof.
  intros s.
  assert (Hr : @HMS.reachable ascii_lower s).
  { exists "City General Hospital", (439041101 * 2 ^ 96)%N, (1 * 2 ^ 96)%N,
      [HMS.RegisterPatient (7 * 2 ^ 96) "Carol" "Migraine"].
    reflexivity. }
  exact (@treatment_follows_queue_order ascii_lower s
           ["09:00"; "09:30"; "10:00"] "10:30" Hr eq_refl).
Defined.

(** X25. The handler that records a treatment step, in a reachable state.
    A request without a JSON body, or made while no patient is being
    treated, is answered with an error and changes nothing.  Otherwise
    the answer is "Treatment step recorded." and the history shown by the
    status is the one shown before followed by one entry, stamped with the
    time of the call and carrying the [detail] of the request as it is,
    [None] when the request has none; no other ledger changes. *)
Theorem add_treatment_handler `{StrLower} s now (data : gmap string string) :
  HMS.reachable s →
  App.add_treatment None now s
  = (App.mkResponse "error"
       (App.Failure "Adding treatment failed: " BadRequest) 200, s) ∧
  (current_treatment_id s = None →
   App.add_treatment (Some data) now s
   = (App.mkResponse "error"
        (App.Text "No patient currently selected for treatment.") 400, s)) ∧
  (∀ i, current_treatment_id s = Some i →
        let s' := snd (App.add_treatment (Some data) now s) in
        fst (App.add_treatment (Some data) now s)
        = App.mkResponse "success" (App.Text "Treatment step recorded.") 200 ∧
        HMS.history_data (HMS.get_status_data s')
        = HMS.history_data (HMS.get_status_data s)
          ++ [mkTreatmentEntry now (data !! "detail")] ∧
        ∀ j, j ≠ i → patient_records s' !! j = patient_records s !! j).
Proof.
  intros Hreach. pose proof (reachable_inv s Hreach) as Hinv.
  split_and!; [done| |].
  - intros Hn. unfold App.add_treatment. by rewrite Hn.
  - intros i Hi s'.
    destruct (current_cases s Hinv) as [Hf | (i' & r & Hc & Ht & Hr)].
    { destruct Hinv as (_ & _ & Hcur). destruct (Hcur i Hi) as [Hlen _].
      rewrite Hi, (length8_truthy i Hlen) in Hf. discriminate. }
    assert (i' = i) as -> by congruence.
    unfold s', App.add_treatment.
    rewrite Hc, Ht, (current_add now _ s i r Hc Ht Hr). cbn [negb fst snd].
    split_and!; [done| |].
    + unfold HMS.get_status_data. cbn. by rewrite Hc, lookup_insert_eq, Hr.
    + intros j Hj. cbn. by rewrite lookup_insert_ne.
Qed.

Lemma add_treatment_handler_witness :
  let s := HMS.run [HMS.TreatNextPatient "2024-05-01 09:00:00"]
             (@HMS.init ascii_lower "City General Hospital"
                (439041101 * 2 ^ 96)%N (1 * 2 ^ 96)%N) in
  let data : gmap string string := {[ "note" := "no detail given" ]} in
  HMS.history_data
    (HMS.get_status_data
       (snd (App.add_treatment (Some data) "2024-05-01 09:05:00" s)))
  = HMS.history_data (HMS.get_status_data s)
    ++ [mkTreatmentEntry "2024-05-01 09:05:00" None].
Proof.
  intros s data.
  assert (Hr : @HMS.reachable ascii_lower s).
  { exists "City General Hospital", (439041101 * 2 ^ 96)%N, (1 * 2 ^ 96)%N,
      [HMS.TreatNextPatient "2024-05-01 09:00:00"].
    reflexivity. }
  exact (proj1 (proj2 (proj2 (proj2 (@add_treatment_handler ascii_lower s
                  "2024-05-01 09:05:00" data Hr)) "1a2b3c4d" eq_refl))).
Defined.

(** ** Instances of the properties above that need no assumption *)

Lemma queue_size_counts_entries_witness :
  let q := QueueRun.qrun [QueueRun.Enq 7 "Ann" "Cough"; QueueRun.Deq;
                          QueueRun.Deq; QueueRun.Enq 9 "Bea" "Rash"]
             Queue.new in
  size q = 1 ∧
  size q = Z.of_nat (length (Queue.to_list q)) ∧
  (head q = None ↔ tail q = None) ∧
  (Queue.is_empty q = true ↔ size q = 0).
Proof.
  intros q. split; [reflexivity|].
  exact (queue_size_counts_entries
           [QueueRun.Enq 7 "Ann" "Cough"; QueueRun.Deq; QueueRun.Deq;
            QueueRun.Enq 9 "Bea" "Rash"]).
Defined.

Lemma handlers_never_500_witness :
  let s := @HMS.init ascii_lower "City General Hospital"
             (439041101 * 2 ^ 96)%N (1 * 2 ^ 96)%N in
  App.resp_code (fst (App.add_treatment (Some ∅) "2024-05-01 09:00:00" s))
    = 400 ∧
  App.resp_code (fst (App.add_treatment (Some ∅) "2024-05-01 09:00:00" s))
    ≠ 500 ∧
  App.resp_code (fst (App.assign_doctor (Some ∅) s)) ≠ 500.
Proof.
  intros s. split; [reflexivity|].
  exact (handlers_never_500 (Some ∅) "2024-05-01 09:00:00" s).
Defined.


Lemma find_node_first_match_witness :
  let t := mkSpecializationNode "Clinic" []
             [mkSpecializationNode "Surgery" []
                [mkSpecializationNode "ward" [] []];
              mkSpecializationNode "Ward" [] []] in
  @Tree._find_node ascii_lower t "WARD" = Some [0; 0]%nat ∧
  Tree.subtree [0; 0]%nat t = Some (mkSpecializationNode "ward" [] []).
Proof.
  intros t.
  destruct (@find_node_first_match ascii_lower t "WARD") as (Hf & Hs & _).
  split.
  - rewrite Hf. reflexivity.
  - apply Hs. vm_compute.
    apply list_elem_of_further, list_elem_of_further, list_elem_of_here.
Defined.
